(** * Report endpoints of the movie back end (app.py)

    A shallow embedding of the Flask handlers of [app.py] and of the part of
    the document store they talk to.

    - JSON / BSON data is the type [value]; Python dicts are association
      lists in insertion order, Python lists are [VArr].
    - Aggregation pipelines are data, as in the source: a list of [stage]s
      handed to [aggregate].
    - The document store is an external collaborator.  Its aggregation
      engine is modelled by [run_pipeline]; what the engine leaves open
      (the regular-expression library, the order in which [$group] emits
      its groups, whether a call fails) is a parameter, the record [env].
      So is the interpreter's [int], the converter of the [limit]
      parameter.
    - Handlers run in a small state-and-exception monad [M] over the store;
      [try ... except Exception] is [try_except]. *)

From Stdlib Require Import ZArith List String Ascii Bool Lia Sorted Permutation.
Import ListNotations.

Open Scope string_scope.
Open Scope list_scope.
Open Scope Z_scope.

(* ================================================================== *)
(** ** Values *)

#[warnings="-register-all"]
Inductive value : Type :=
| VNull
| VBool (b : bool)
| VInt (z : Z)
| VStr (s : string)
| VArr (items : list value)
| VDoc (fields : list (string * value)).

(** Structural equality; embedded documents are equal when they hold the
    same fields in the same order. *)
Fixpoint value_eqb (a b : value) {struct a} : bool :=
  match a, b with
  | VNull, VNull => true
  | VBool x, VBool y => Bool.eqb x y
  | VInt x, VInt y => (x =? y)%Z
  | VStr x, VStr y => (x =? y)%string
  | VArr xs, VArr ys =>
      (fix items_eqb (xs ys : list value) {struct xs} : bool :=
         match xs, ys with
         | [], [] => true
         | x :: xs', y :: ys' => value_eqb x y && items_eqb xs' ys'
         | _, _ => false
         end) xs ys
  | VDoc fs, VDoc gs =>
      (fix fields_eqb (fs gs : list (string * value)) {struct fs} : bool :=
         match fs, gs with
         | [], [] => true
         | (k, x) :: fs', (k', y) :: gs' =>
             (k =? k')%string && value_eqb x y && fields_eqb fs' gs'
         | _, _ => false
         end) fs gs
  | _, _ => false
  end.

(** First binding of a key in a dict. *)
Fixpoint assoc {A : Type} (k : string) (d : list (string * A)) : option A :=
  match d with
  | [] => None
  | (k', v) :: d' => if (k' =? k)%string then Some v else assoc k d'
  end.

Definition get_field (k : string) (v : value) : option value :=
  match v with
  | VDoc fs => assoc k fs
  | _ => None
  end.

(** Replace the binding of [k], keeping its position, or add it at the end. *)
Fixpoint set_assoc (k : string) (x : value) (d : list (string * value))
  : list (string * value) :=
  match d with
  | [] => [(k, x)]
  | (k', v) :: d' =>
      if (k' =? k)%string then (k, x) :: d' else (k', v) :: set_assoc k x d'
  end.

(** Dotted field paths, ["genres.name"]. *)
Fixpoint split_dot_aux (cur : string -> string) (s : string) : list string :=
  match s with
  | EmptyString => [cur EmptyString]
  | String c s' =>
      if (c =? ".")%char then cur EmptyString :: split_dot_aux (fun r => r) s'
      else split_dot_aux (fun r => cur (String c r)) s'
  end.

Definition split_dot (s : string) : list string := split_dot_aux (fun r => r) s.

Fixpoint get_path_list (p : list string) (v : value) : option value :=
  match p with
  | [] => Some v
  | k :: p' =>
      match get_field k v with
      | Some v' => get_path_list p' v'
      | None => None
      end
  end.

Definition get_path (path : string) (v : value) : option value :=
  get_path_list (split_dot path) v.

(* ================================================================== *)
(** ** Results and exceptions *)

(** An exception is represented by [str(e)], the only part of it the
    handlers use. *)
Inductive result (A : Type) : Type :=
| Ok (a : A)
| Raise (msg : string).

Arguments Ok {A} a.
Arguments Raise {A} msg.

(* ================================================================== *)
(** ** Aggregation pipelines *)

(** Right-hand side of a [$match] entry: a literal, or
    [{'$regex': pattern, '$options': options}]. *)
Inductive cond : Type :=
| CEq (v : value)
| CRegex (pattern options : string).

Definition match_spec : Type := list (string * cond).

(** An aggregation expression: a constant, or a field path ['$a.b']
    (written without its dollar). *)
Inductive expr : Type :=
| EConst (v : value)
| EField (path : string).

(** [{'$sum': e}], the only accumulator of the program. *)
Inductive accumulator : Type :=
| Sum (e : expr).

Inductive stage : Type :=
| Unwind (field : string)
| Match (m : match_spec)
| Group (id : expr) (accs : list (string * accumulator))
| Sort (field : string) (direction : Z)
| Limit (n : Z)
| Count (name : string).

Definition pipeline : Type := list stage.

(** What the surroundings of the program leave open.
    - [regex_compile pattern options] is the store's regular-expression
      library: it rejects the pattern with a message or gives the search
      predicate on subject strings.
    - [group_order] is the order in which [$group] emits its groups, which
      the store does not specify: any permutation.
    - [fault n] tells whether the [n]-th call made to the store fails by
      itself (connection lost, time-out, ...), and with which message.
    - [py_int text] is the interpreter's [int] applied to a text: the
      integer it reads, or nothing when it raises [ValueError]. *)
Record env : Type := {
  regex_compile : string -> string -> result (string -> bool);
  group_order : list value -> list value;
  group_order_perm : forall l, Permutation l (group_order l);
  fault : nat -> option string;
  py_int : string -> option Z
}.

(** *** [$unwind] *)

(** One output row per element of the array at [field], the element
    replacing the array.  A missing field, a null and an empty array give no
    row; any other value counts as a one-element array. *)
Definition unwind_doc (field : string) (d : value) : list value :=
  match d with
  | VDoc fs =>
      match assoc field fs with
      | None => []
      | Some VNull => []
      | Some (VArr items) => map (fun x => VDoc (set_assoc field x fs)) items
      | Some _ => [d]
      end
  | _ => []
  end.

(** *** [$match] *)

Definition compile_cond (E : env) (c : cond) : result (option value -> bool) :=
  match c with
  | CEq v =>
      Ok (fun o => match o with Some x => value_eqb x v | None => false end)
  | CRegex pattern options =>
      match regex_compile E pattern options with
      | Ok search =>
          Ok (fun o => match o with Some (VStr s) => search s | _ => false end)
      | Raise msg => Raise msg
      end
  end.

(** A row is kept when every entry of the spec holds of it. *)
Fixpoint compile_match (E : env) (m : match_spec) : result (value -> bool) :=
  match m with
  | [] => Ok (fun _ => true)
  | (path, c) :: m' =>
      match compile_cond E c with
      | Raise msg => Raise msg
      | Ok test =>
          match compile_match E m' with
          | Raise msg => Raise msg
          | Ok rest => Ok (fun d => test (get_path path d) && rest d)
          end
      end
  end.

(** *** [$group] *)

Definition eval_expr (e : expr) (d : value) : option value :=
  match e with
  | EConst v => Some v
  | EField path => get_path path d
  end.

(** A group key that is missing counts as null. *)
Definition group_key (id : expr) (d : value) : value :=
  match eval_expr id d with
  | Some v => v
  | None => VNull
  end.

(** [$sum] adds the numeric values and ignores the others. *)
Definition numeric (o : option value) : Z :=
  match o with
  | Some (VInt z) => z
  | _ => 0
  end.

Definition sum_expr (e : expr) (members : list value) : Z :=
  fold_right (fun d acc => numeric (eval_expr e d) + acc) 0 members.

Definition eval_acc (a : accumulator) (members : list value) : value :=
  match a with
  | Sum e => VInt (sum_expr e members)
  end.

(** Rows are put in buckets by key, buckets in order of first occurrence. *)
Fixpoint bucket_insert (key d : value) (bs : list (value * list value))
  : list (value * list value) :=
  match bs with
  | [] => [(key, [d])]
  | (k, members) :: bs' =>
      if value_eqb k key then (k, members ++ [d]) :: bs'
      else (k, members) :: bucket_insert key d bs'
  end.

Definition buckets (id : expr) (rows : list value) : list (value * list value) :=
  fold_left (fun bs d => bucket_insert (group_key id d) d bs) rows [].

Definition group_doc (accs : list (string * accumulator))
  (b : value * list value) : value :=
  VDoc (("_id", fst b) :: map (fun na => (fst na, eval_acc (snd na) (snd b))) accs).

Definition group_rows (E : env) (id : expr) (accs : list (string * accumulator))
  (rows : list value) : list value :=
  group_order E (map (group_doc accs) (buckets id rows)).

(** *** [$sort] *)

(** Order of the store on values: by type first (null, numbers, strings,
    documents, arrays, booleans), then inside the type.  The pipelines of
    this program sort on [$sum] results, which are numbers; two documents or
    two arrays are left as they come. *)
Definition type_rank (v : value) : Z :=
  match v with
  | VNull => 1
  | VInt _ => 2
  | VStr _ => 3
  | VDoc _ => 4
  | VArr _ => 5
  | VBool _ => 6
  end.

Definition value_leb (a b : value) : bool :=
  match a, b with
  | VInt x, VInt y => (x <=? y)%Z
  | VStr x, VStr y => String.leb x y
  | VBool x, VBool y => implb x y
  | _, _ => (type_rank a <=? type_rank b)%Z
  end.

Definition sort_key (field : string) (d : value) : value :=
  match get_path field d with
  | Some v => v
  | None => VNull
  end.

Fixpoint insert_by (le : value -> value -> bool) (x : value) (l : list value)
  : list value :=
  match l with
  | [] => [x]
  | y :: l' => if le x y then x :: y :: l' else y :: insert_by le x l'
  end.

Definition sort_by (le : value -> value -> bool) (l : list value) : list value :=
  fold_right (insert_by le) [] l.

Definition sort_rows (field : string) (direction : Z) (rows : list value)
  : result (list value) :=
  if (direction =? 1)%Z then
    Ok (sort_by (fun a b => value_leb (sort_key field a) (sort_key field b)) rows)
  else if (direction =? -1)%Z then
    Ok (sort_by (fun a b => value_leb (sort_key field b) (sort_key field a)) rows)
  else Raise "$sort key ordering must be 1 (for ascending) or -1 (for descending)".

(** *** The stages together *)

Definition run_stage (E : env) (s : stage) (rows : list value)
  : result (list value) :=
  match s with
  | Unwind field => Ok (flat_map (unwind_doc field) rows)
  | Match m =>
      match compile_match E m with
      | Ok keep => Ok (filter keep rows)
      | Raise msg => Raise msg
      end
  | Group id accs => Ok (group_rows E id accs rows)
  | Sort field direction => sort_rows field direction rows
  | Limit n =>
      if (0 <? n)%Z then Ok (firstn (Z.to_nat n) rows)
      else Raise "the limit must be positive"
  | Count name =>
      match rows with
      | [] => Ok []
      | _ => Ok [VDoc [(name, VInt (Z.of_nat (List.length rows)))]]
      end
  end.

Fixpoint run_pipeline (E : env) (p : pipeline) (rows : list value)
  : result (list value) :=
  match p with
  | [] => Ok rows
  | s :: p' =>
      match run_stage E s rows with
      | Ok rows' => run_pipeline E p' rows'
      | Raise msg => Raise msg
      end
  end.

(* ================================================================== *)
(** ** The document store and the handler monad *)

(** The calls a pymongo collection offers that matter here: the two reads
    the handlers make, and two writes for contrast. *)
Inductive op : Type :=
| OpAggregate (p : pipeline)
| OpCountDocuments (filter : match_spec)
| OpInsertOne (d : value)
| OpDeleteMany (filter : match_spec).

(** The collection [db.movies], and the log of the calls made to it. *)
Record store : Type := {
  docs : list value;
  calls : list op
}.

(** A computation that reads and writes the store and may raise. *)
Definition M (A : Type) : Type := store -> result A * store.

Definition ret {A : Type} (a : A) : M A := fun st => (Ok a, st).

Definition raise {A : Type} (msg : string) : M A := fun st => (Raise msg, st).

Definition bind {A B : Type} (m : M A) (k : A -> M B) : M B :=
  fun st =>
    match m st with
    | (Ok a, st') => k a st'
    | (Raise msg, st') => (Raise msg, st')
    end.

(** [try: body  except Exception as e: handler(str(e))]. *)
Definition try_except {A : Type} (body : M A) (handler : string -> M A) : M A :=
  fun st =>
    match body st with
    | (Ok a, st') => (Ok a, st')
    | (Raise msg, st') => handler msg st'
    end.

Declare Scope monad_scope.
Delimit Scope monad_scope with monad.
Notation "x <- m ;; k" := (bind m (fun x => k))
  (at level 100, m at next level, right associativity) : monad_scope.
Open Scope monad_scope.

Fixpoint map_M {A B : Type} (f : A -> M B) (l : list A) : M (list B) :=
  match l with
  | [] => ret []
  | x :: l' =>
      y <- f x ;;
      ys <- map_M f l' ;;
      ret (y :: ys)
  end.

(** One call to the store: it is logged, fails when the environment says
    so, and otherwise runs on the current documents. *)
Definition store_call {A : Type} (E : env) (o : op)
  (run : list value -> result A * list value) : M A :=
  fun st =>
    match fault E (List.length (calls st)) with
    | Some msg => (Raise msg, {| docs := docs st; calls := calls st ++ [o] |})
    | None =>
        let (r, docs') := run (docs st) in
        (r, {| docs := docs'; calls := calls st ++ [o] |})
    end.

(** [list(collection.aggregate(pipeline))] *)
Definition aggregate (E : env) (p : pipeline) : M (list value) :=
  store_call E (OpAggregate p) (fun ds => (run_pipeline E p ds, ds)).

(** [collection.count_documents(filter)] *)
Definition count_documents (E : env) (filter : match_spec) : M Z :=
  store_call E (OpCountDocuments filter)
    (fun ds =>
       match compile_match E filter with
       | Ok keep => (Ok (Z.of_nat (List.length (List.filter keep ds))), ds)
       | Raise msg => (Raise msg, ds)
       end).

(** [collection.insert_one(d)] *)
Definition insert_one (E : env) (d : value) : M unit :=
  store_call E (OpInsertOne d) (fun ds => (Ok tt, ds ++ [d])).

(** [collection.delete_many(filter)] *)
Definition delete_many (E : env) (filter : match_spec) : M Z :=
  store_call E (OpDeleteMany filter)
    (fun ds =>
       match compile_match E filter with
       | Ok keep =>
           (Ok (Z.of_nat (List.length (List.filter keep ds))),
            List.filter (fun d => negb (keep d)) ds)
       | Raise msg => (Raise msg, ds)
       end).

Definition is_read (o : op) : bool :=
  match o with
  | OpAggregate _ | OpCountDocuments _ => true
  | OpInsertOne _ | OpDeleteMany _ => false
  end.

(** The store never fails by itself. *)
Definition healthy (E : env) : Prop := forall n, fault E n = None.

(* ================================================================== *)
(** ** Requests and responses *)

(** [request.args]: the pairs of the query string, in order. *)
Definition query_args : Type := list (string * string).

(** [request.args.get(key, default=..., type=...)]: the first value of
    [key], converted; the default when the key is absent or the conversion
    raises [ValueError]. *)
Definition args_get {A : Type} (args : query_args) (key : string) (default : A)
  (type : string -> option A) : A :=
  match assoc key args with
  | None => default
  | Some s =>
      match type s with
      | Some v => v
      | None => default
      end
  end.

(** [str] as a converter. *)
Definition py_str (s : string) : option string := Some s.

(** An instance of [int] for the examples, on ASCII text: blanks (codes 9
    to 13 and 32) around, an optional sign, decimal digits with single
    underscores between digits, at most 4300 digits.  Texts with characters
    beyond ASCII are outside the instance, which reports them as not
    parsable; the theorems about all environments do not depend on it. *)
Definition is_space (c : ascii) : bool :=
  let n := nat_of_ascii c in
  (Nat.eqb n 32 || (Nat.leb 9 n && Nat.leb n 13))%bool.

Definition is_digit (c : ascii) : bool :=
  let n := nat_of_ascii c in (Nat.leb 48 n && Nat.leb n 57)%bool.

Definition digit_value (c : ascii) : Z := Z.of_nat (nat_of_ascii c) - 48.

Fixpoint lstrip (s : string) : string :=
  match s with
  | String c s' => if is_space c then lstrip s' else s
  | EmptyString => EmptyString
  end.

Fixpoint rstrip (s : string) : string :=
  match s with
  | EmptyString => EmptyString
  | String c s' =>
      match rstrip s' with
      | EmptyString => if is_space c then EmptyString else String c EmptyString
      | r => String c r
      end
  end.

Fixpoint digits (acc : Z) (after_digit : bool) (s : string) : option Z :=
  match s with
  | EmptyString => if after_digit then Some acc else None
  | String c s' =>
      if is_digit c then digits (10 * acc + digit_value c) true s'
      else if ((c =? "_")%char && after_digit)%bool then digits acc false s'
      else None
  end.

Fixpoint digit_count (s : string) : Z :=
  match s with
  | EmptyString => 0
  | String c s' => if is_digit c then 1 + digit_count s' else digit_count s'
  end.

(** The interpreter's default bound on the digits of a text. *)
Definition max_str_digits : Z := 4300.

Definition ascii_int (s : string) : option Z :=
  let text := lstrip (rstrip s) in
  if max_str_digits <? digit_count text then None
  else
    match text with
    | String "-" s' => option_map Z.opp (digits 0 false s')
    | String "+" s' => digits 0 false s'
    | s' => digits 0 false s'
    end.

(** A Flask response: the JSON body before serialisation and the status. *)
Record response : Type := {
  body : value;
  status : Z
}.

Definition jsonify (v : value) : response := {| body := v; status := 200 |}.

(** [return resp, code] *)
Definition with_status (r : response) (code : Z) : response :=
  {| body := body r; status := code |}.

(** [item[key]] on a dict. *)
Definition getitem (item : value) (key : string) : M value :=
  match item with
  | VDoc fs =>
      match assoc key fs with
      | Some v => ret v
      | None => raise ("'" ++ key ++ "'")
      end
  | _ => raise "object is not subscriptable"
  end.

(** [except Exception as e: return jsonify({"error": str(e)}), 500] *)
Definition error_500 (e : string) : M response :=
  ret (with_status (jsonify (VDoc [("error", VStr e)])) 500).

(* ================================================================== *)
(** ** The handlers *)

(** *** [GET /] *)

Definition index : M response :=
  ret (jsonify (VDoc [("status", VStr "API corriendo"); ("db_conectada", VBool true)])).

(** *** [GET /api/reportes/top_generos] *)

(** [limit = max(1, min(limit, 50))] after [request.args.get('limit', ...)] *)
Definition get_top_genres_limit (E : env) (args : query_args) : Z :=
  let limit := args_get args "limit" 10 (py_int E) in
  Z.max 1 (Z.min limit 50).

(** [sort_direction = -1 if sort_order == 'desc' else 1] *)
Definition sort_direction (args : query_args) : Z :=
  let sort_order := args_get args "sort" "desc" py_str in
  if (sort_order =? "desc")%string then -1 else 1.

Definition get_top_genres_pipeline (limit direction : Z) : pipeline :=
  [ Unwind "genres";
    Group (EField "genres.name") [("conteo", Sum (EConst (VInt 1)))];
    Sort "conteo" direction;
    Limit limit ].

Definition format_genre (item : value) : M value :=
  nombre <- getitem item "_id" ;;
  conteo <- getitem item "conteo" ;;
  ret (VDoc [("nombre", nombre); ("conteo", conteo)]).

Definition get_top_genres_body (E : env) (args : query_args) : M response :=
  let limit := get_top_genres_limit E args in
  let direction := sort_direction args in
  data <- aggregate E (get_top_genres_pipeline limit direction) ;;
  formatted_data <- map_M format_genre data ;;
  ret (jsonify (VArr formatted_data)).

Definition get_top_genres (E : env) (args : query_args) : M response :=
  try_except (get_top_genres_body E args) error_500.

(** *** [GET /api/reportes/top_directores_ingresos] *)

Definition get_top_directors_revenue_limit (E : env) (args : query_args) : Z :=
  let limit := args_get args "limit" 5 (py_int E) in
  Z.max 1 (Z.min limit 30).

Definition get_top_directors_revenue_pipeline (limit direction : Z) : pipeline :=
  [ Unwind "crew";
    Match [("crew.job", CEq (VStr "Director"))];
    Group (EField "crew.name") [("ingresos_totales", Sum (EField "revenue"))];
    Sort "ingresos_totales" direction;
    Limit limit ].

Definition format_director (item : value) : M value :=
  director <- getitem item "_id" ;;
  ingresos_totales <- getitem item "ingresos_totales" ;;
  ret (VDoc [("director", director); ("ingresos_totales", ingresos_totales)]).

Definition get_top_directors_revenue_body (E : env) (args : query_args)
  : M response :=
  let limit := get_top_directors_revenue_limit E args in
  let direction := sort_direction args in
  data <- aggregate E (get_top_directors_revenue_pipeline limit direction) ;;
  formatted_data <- map_M format_director data ;;
  ret (jsonify (VArr formatted_data)).

Definition get_top_directors_revenue (E : env) (args : query_args) : M response :=
  try_except (get_top_directors_revenue_body E args) error_500.

(** *** [GET /api/reportes/search] *)

Definition search_genre_pipeline (query : string) : pipeline :=
  [ Unwind "genres";
    Match [("genres.name", CRegex query "i")];
    Group (EField "genres.name") [("conteo", Sum (EConst (VInt 1)))];
    Sort "conteo" (-1);
    Limit 10 ].

Definition search_director_pipeline (query : string) : pipeline :=
  [ Unwind "crew";
    Match [("crew.job", CEq (VStr "Director"));
           ("crew.name", CRegex query "i")];
    Group (EField "crew.name") [("ingresos_totales", Sum (EField "revenue"))];
    Sort "ingresos_totales" (-1);
    Limit 10 ].

Definition q_required : response :=
  with_status
    (jsonify (VDoc [("error", VStr "Parámetro 'q' requerido")])) 400.

Definition search_body (E : env) (args : query_args) : M response :=
  let query := args_get args "q" "" py_str in
  if (query =? "")%string then ret q_required
  else
    genres <- aggregate E (search_genre_pipeline query) ;;
    directors <- aggregate E (search_director_pipeline query) ;;
    genres' <- map_M format_genre genres ;;
    directors' <- map_M format_director directors ;;
    ret (jsonify (VDoc [("genres", VArr genres'); ("directors", VArr directors')])).

Definition search (E : env) (args : query_args) : M response :=
  try_except (search_body E args) error_500.

(** *** [GET /api/reportes/stats] *)

Definition stats_genre_pipeline : pipeline :=
  [ Unwind "genres";
    Group (EField "genres.name") [];
    Count "total" ].

Definition stats_director_pipeline : pipeline :=
  [ Unwind "crew";
    Match [("crew.job", CEq (VStr "Director"))];
    Group (EField "crew.name") [("ingresos_totales", Sum (EField "revenue"))];
    Sort "ingresos_totales" (-1);
    Limit 1 ].

Definition get_stats_body (E : env) : M response :=
  total_movies <- count_documents E [] ;;
  genre_result <- aggregate E stats_genre_pipeline ;;
  total_genres <- match genre_result with
                  | first :: _ => getitem first "total"
                  | [] => ret (VInt 0)
                  end ;;
  top_director <- aggregate E stats_director_pipeline ;;
  ret (jsonify (VDoc [("total_movies", VInt total_movies);
                      ("total_genres", total_genres);
                      ("top_director", match top_director with
                                       | first :: _ => first
                                       | [] => VNull
                                       end)])).

Definition get_stats (E : env) : M response :=
  try_except (get_stats_body E) error_500.

(* ================================================================== *)
(** ** An instance of the environment *)

(** A regular-expression library for the examples: the fragment of PCRE
    made of literals, [.], groups, [|] and the quantifiers [*], [+], [?].
    Patterns that use other PCRE syntax are outside the fragment, and this
    instance reports them as such; the theorems about all environments do
    not depend on it. *)
Module Regex.

Inductive regex : Type :=
| Void
| Eps
| Chr (c : ascii)
| Dot
| Any
| Cat (r1 r2 : regex)
| Alt (r1 r2 : regex)
| Star (r : regex).

Fixpoint nullable (r : regex) : bool :=
  match r with
  | Void | Chr _ | Dot | Any => false
  | Eps | Star _ => true
  | Cat r1 r2 => nullable r1 && nullable r2
  | Alt r1 r2 => nullable r1 || nullable r2
  end.

Definition newline : ascii := ascii_of_nat 10.

(** Brzozowski derivative. *)
Fixpoint deriv (c : ascii) (r : regex) : regex :=
  match r with
  | Void | Eps => Void
  | Chr c' => if (c =? c')%char then Eps else Void
  | Dot => if (c =? newline)%char then Void else Eps
  | Any => Eps
  | Cat r1 r2 =>
      if nullable r1 then Alt (Cat (deriv c r1) r2) (deriv c r2)
      else Cat (deriv c r1) r2
  | Alt r1 r2 => Alt (deriv c r1) (deriv c r2)
  | Star r1 => Cat (deriv c r1) (Star r1)
  end.

Fixpoint matches (r : regex) (s : string) : bool :=
  match s with
  | EmptyString => nullable r
  | String c s' => matches (deriv c r) s'
  end.

(** The pattern matches somewhere in the subject. *)
Definition found (r : regex) (s : string) : bool :=
  matches (Cat (Star Any) (Cat r (Star Any))) s.

(** An open group while parsing: the alternatives already closed by [|],
    the items of the current alternative (last first), and whether the last
    item may still take a quantifier. *)
Record frame : Type := {
  alts : list regex;
  items : list regex;
  repeatable : bool
}.

Definition empty_frame : frame :=
  {| alts := []; items := []; repeatable := false |}.

Definition cat_items (rev_items : list regex) : regex :=
  fold_left (fun acc r => Cat r acc) rev_items Eps.

Definition close_frame (f : frame) : regex :=
  fold_right Alt (cat_items (items f)) (alts f).

Definition push_item (r : regex) (f : frame) : frame :=
  {| alts := alts f; items := r :: items f; repeatable := true |}.

Definition quantify (q : regex -> regex) (f : frame) : result frame :=
  match items f, repeatable f with
  | r :: rest, true =>
      Ok {| alts := alts f; items := q r :: rest; repeatable := false |}
  | r :: rest, false => Raise "pattern outside the modelled fragment"
  | [], _ => Raise "quantifier does not follow a repeatable item"
  end.

Definition is_alnum (c : ascii) : bool :=
  let n := nat_of_ascii c in
  ((Nat.leb 48 n && Nat.leb n 57) || (Nat.leb 65 n && Nat.leb n 90)
   || (Nat.leb 97 n && Nat.leb n 122))%bool.

Definition outside : result regex := Raise "pattern outside the modelled fragment".

Fixpoint parse (cur : frame) (stack : list frame) (s : string) : result regex :=
  match s with
  | EmptyString =>
      match stack with
      | [] => Ok (close_frame cur)
      | _ :: _ => Raise "missing closing parenthesis"
      end
  | String c s' =>
      if (c =? "(")%char then
        match s' with
        | String "?" _ | String "*" _ => outside
        | _ => parse empty_frame (cur :: stack) s'
        end
      else if (c =? ")")%char then
        match stack with
        | [] => Raise "unmatched closing parenthesis"
        | parent :: stack' => parse (push_item (close_frame cur) parent) stack' s'
        end
      else if (c =? "|")%char then
        parse {| alts := alts cur ++ [cat_items (items cur)];
                 items := []; repeatable := false |} stack s'
      else if (c =? "*")%char then
        match quantify Star cur with
        | Ok f => parse f stack s'
        | Raise msg => Raise msg
        end
      else if (c =? "+")%char then
        match quantify (fun r => Cat r (Star r)) cur with
        | Ok f => parse f stack s'
        | Raise msg => Raise msg
        end
      else if (c =? "?")%char then
        match quantify (fun r => Alt r Eps) cur with
        | Ok f => parse f stack s'
        | Raise msg => Raise msg
        end
      else if (c =? ".")%char then parse (push_item Dot cur) stack s'
      else if (c =? "\")%char then
        match s' with
        | EmptyString => Raise "\ at end of pattern"
        | String e s'' =>
            if is_alnum e then outside else parse (push_item (Chr e) cur) stack s''
        end
      else if ((c =? "[") || (c =? "{") || (c =? "^") || (c =? "$"))%char then
        outside
      else parse (push_item (Chr c) cur) stack s'
  end.

Definition lower (c : ascii) : ascii :=
  let n := nat_of_ascii c in
  if (Nat.leb 65 n && Nat.leb n 90)%bool then ascii_of_nat (n + 32) else c.

Fixpoint lower_string (s : string) : string :=
  match s with
  | EmptyString => EmptyString
  | String c s' => String (lower c) (lower_string s')
  end.

Fixpoint lower_regex (r : regex) : regex :=
  match r with
  | Chr c => Chr (lower c)
  | Cat r1 r2 => Cat (lower_regex r1) (lower_regex r2)
  | Alt r1 r2 => Alt (lower_regex r1) (lower_regex r2)
  | Star r1 => Star (lower_regex r1)
  | _ => r
  end.

(** [compile pattern options]; the only option of the program is ["i"]. *)
Definition compile (pattern options : string) : result (string -> bool) :=
  match parse empty_frame [] pattern with
  | Raise msg => Raise ("Regular expression is invalid: " ++ msg)
  | Ok r =>
      if (options =? "i")%string then
        Ok (fun s => found (lower_regex r) (lower_string s))
      else if (options =? "")%string then Ok (found r)
      else Raise "option outside the modelled fragment"
  end.

End Regex.

(** A store that never fails by itself, emits groups in order of first
    occurrence, and uses the library above; [int] is the instance on ASCII
    text. *)
Definition plain_env : env := {|
  regex_compile := Regex.compile;
  group_order := fun l => l;
  group_order_perm := @Permutation_refl value;
  fault := fun _ => None;
  py_int := ascii_int
|}.

(** The same store, failing at the calls listed in [faults]. *)
Definition faulty_env (faults : nat -> option string) : env := {|
  regex_compile := Regex.compile;
  group_order := fun l => l;
  group_order_perm := @Permutation_refl value;
  fault := faults;
  py_int := ascii_int
|}.

(* ================================================================== *)
(** ** Collections that follow the data model *)

Record genre : Type := { genre_name : string }.

Record crew_member : Type := { crew_name : string; crew_job : string }.

(** A movie: its genres, its crew, its revenue, and the further fields of
    the document (identifier, title, ...), which no pipeline reads. *)
Record movie : Type := {
  genres : list genre;
  crew : list crew_member;
  revenue : Z;
  other : list (string * value)
}.

Definition genre_doc (g : genre) : value := VDoc [("name", VStr (genre_name g))].

Definition crew_doc (c : crew_member) : value :=
  VDoc [("name", VStr (crew_name c)); ("job", VStr (crew_job c))].

Definition movie_doc (m : movie) : value :=
  VDoc (("genres", VArr (map genre_doc (genres m))) ::
        ("crew", VArr (map crew_doc (crew m))) ::
        ("revenue", VInt (revenue m)) :: other m).

Definition collection_of (movies : list movie) : store :=
  {| docs := map movie_doc movies; calls := [] |}.

(** Two small collections for the examples. *)
Definition two_movies : list movie :=
  [ {| genres := [ {| genre_name := "Drama" |}; {| genre_name := "Comedy" |} ];
       crew := [ {| crew_name := "A"; crew_job := "Director" |} ];
       revenue := 100; other := [] |};
    {| genres := [ {| genre_name := "Drama" |} ];
       crew := [ {| crew_name := "B"; crew_job := "Director" |} ];
       revenue := 50; other := [] |} ].

Definition credited_movies : list movie :=
  [ {| genres := [ {| genre_name := "Drama" |} ];
       crew := [ {| crew_name := "Ana"; crew_job := "Director" |};
                 {| crew_name := "Ana"; crew_job := "Director" |};
                 {| crew_name := "Luis"; crew_job := "director" |};
                 {| crew_name := "Eva"; crew_job := "Co-Director" |} ];
       revenue := 100;
       other := [("title", VStr "Uno"); ("budget", VInt 40)] |};
    {| genres := [ {| genre_name := "Comedy" |} ];
       crew := [ {| crew_name := "Ana"; crew_job := "Director" |};
                 {| crew_name := "Bea"; crew_job := "Director" |} ];
       revenue := 50; other := [] |} ].

(* ================================================================== *)
(** ** What the properties observe *)

(** The column [field] of a JSON array of rows, when every row has an
    integer there. *)
Fixpoint column_of (field : string) (rows : list value) : option (list Z) :=
  match rows with
  | [] => Some []
  | d :: rows' =>
      match get_field field d, column_of field rows' with
      | Some (VInt z), Some zs => Some (z :: zs)
      | _, _ => None
      end
  end.

Definition column (field : string) (b : value) : option (list Z) :=
  match b with
  | VArr rows => column_of field rows
  | _ => None
  end.

(** A computation that leaves the collection as it is and makes only
    aggregation and count calls. *)
Definition reads_only {A : Type} (m : M A) : Prop :=
  forall st,
    docs (snd (m st)) = docs st /\
    exists new, calls (snd (m st)) = calls st ++ new /\ forallb is_read new = true.

(** The 500 response of the handlers. *)
Definition error_response (e : string) : response :=
  {| body := VDoc [("error", VStr e)]; status := 500 |}.

(** A handler catches what its body raises: it always returns a response,
    the body's own when the body returns, the 500 response when it raises. *)
Definition catches_all (handler_body handler : M response) : Prop :=
  forall st,
    (exists resp, fst (handler st) = Ok resp) /\
    (forall resp, fst (handler_body st) = Ok resp -> fst (handler st) = Ok resp) /\
    (forall e, fst (handler_body st) = Raise e ->
               fst (handler st) = Ok (error_response e)).

(** The first failure among the [k] store calls that follow call [n]. *)
Fixpoint first_fault (E : env) (n k : nat) : option string :=
  match k with
  | O => None
  | S k' =>
      match fault E n with
      | Some msg => Some msg
      | None => first_fault E (S n) k'
      end
  end.

(** A stage the store accepts: its patterns compile, its sort direction is
    1 or -1, its limit is positive. *)
Definition stage_accepted (E : env) (s : stage) : bool :=
  match s with
  | Match m =>
      match compile_match E m with
      | Ok _ => true
      | Raise _ => false
      end
  | Sort _ direction => ((direction =? 1) || (direction =? -1))%bool
  | Limit n => 0 <? n
  | Unwind _ | Group _ _ | Count _ => true
  end.

(** Directing credits, as the report describes them: the crew rows of a
    movie whose job is exactly ["Director"], under a given name. *)
Definition is_director_credit (d : string) (c : crew_member) : bool :=
  ((crew_job c =? "Director")%string && (crew_name c =? d)%string)%bool.

Definition credits (d : string) (m : movie) : nat :=
  List.length (List.filter (is_director_credit d) (crew m)).

(** The revenue of every movie, once per directing credit of [d]. *)
Definition director_revenue (d : string) (movies : list movie) : Z :=
  fold_right (fun m acc => Z.of_nat (credits d m) * revenue m + acc) 0 movies.

Definition directs (d : string) (movies : list movie) : Prop :=
  exists m c, In m movies /\ In c (crew m) /\ is_director_credit d c = true.

Definition director_row (r : string * Z) : value :=
  VDoc [("director", VStr (fst r)); ("ingresos_totales", VInt (snd r))].

(** Plain substring search, ignoring ASCII case. *)
Fixpoint has_prefix (p s : string) : bool :=
  match p, s with
  | EmptyString, _ => true
  | String a p', String b s' => ((a =? b)%char && has_prefix p' s')%bool
  | String _ _, EmptyString => false
  end.

Fixpoint is_substring (p s : string) : bool :=
  (has_prefix p s ||
   match s with
   | EmptyString => false
   | String _ s' => is_substring p s'
   end)%bool.

Definition is_substring_nocase (p s : string) : bool :=
  is_substring (Regex.lower_string p) (Regex.lower_string s).

(** A row of [$group] with one [$sum]: the key and the total. *)
Definition row (field : string) (r : value * Z) : value :=
  VDoc [("_id", fst r); (field, VInt (snd r))].

(** The keys of [$group] with their totals, in order of first occurrence. *)
Definition group_table (id : expr) (e : expr) (rows : list value)
  : list (value * Z) :=
  map (fun b => (fst b, sum_expr e (snd b))) (buckets id rows).

(** The JSON rows the two reports make of a grouped row. *)
Definition genre_json (r : value * Z) : value :=
  VDoc [("nombre", fst r); ("conteo", VInt (snd r))].

Definition director_json (r : value * Z) : value :=
  VDoc [("director", fst r); ("ingresos_totales", VInt (snd r))].

(** The crew rows that pass [{'$match': {'crew.job': 'Director'}}]. *)
Definition is_director_row (d : value) : bool :=
  match get_path "crew.job" d with
  | Some x => value_eqb x (VStr "Director")
  | None => false
  end.

Definition director_rows (ds : list value) : list value :=
  List.filter is_director_row (flat_map (unwind_doc "crew") ds).

(** The members of the bucket of [k]; none when there is no such bucket. *)
Fixpoint bucket_members (k : value) (bs : list (value * list value))
  : list value :=
  match bs with
  | [] => []
  | (k', members) :: bs' =>
      if value_eqb k' k then members else bucket_members k bs'
  end.

(** A crew row after [$unwind]: the movie with one crew member in place of
    its crew. *)
Definition credit_doc (m : movie) (c : crew_member) : value :=
  VDoc (("genres", VArr (map genre_doc (genres m))) ::
        ("crew", crew_doc c) ::
        ("revenue", VInt (revenue m)) :: other m).

Definition credit_pairs (movies : list movie) : list (movie * crew_member) :=
  flat_map (fun m => map (pair m) (crew m)) movies.

Definition credit_row (p : movie * crew_member) : value :=
  credit_doc (fst p) (snd p).

Definition has_director_job (p : movie * crew_member) : bool :=
  (crew_job (snd p) =? "Director")%string.

(** The credits of director [d] among crew rows. *)
Definition credits_of (d : string) (ps : list (movie * crew_member))
  : list (movie * crew_member) :=
  List.filter (fun p => is_director_credit d (snd p)) ps.

Definition total_revenue (ps : list (movie * crew_member)) : Z :=
  fold_right (fun p acc => revenue (fst p) + acc) 0 ps.

(** The name in a group key. *)
Definition key_name (k : value) : string :=
  match k with
  | VStr s => s
  | _ => ""
  end.

(** A genre row after [$unwind]: the movie with one genre in place of its
    genres. *)
Definition genre_entry_doc (m : movie) (g : genre) : value :=
  VDoc (("genres", genre_doc g) ::
        ("crew", VArr (map crew_doc (crew m))) ::
        ("revenue", VInt (revenue m)) :: other m).

Definition genre_pairs (movies : list movie) : list (movie * genre) :=
  flat_map (fun m => map (pair m) (genres m)) movies.

Definition genre_entry_row (p : movie * genre) : value :=
  genre_entry_doc (fst p) (snd p).

(** The genre names of a collection, one per genre entry of a movie. *)
Definition genre_names (movies : list movie) : list string :=
  map (fun p => genre_name (snd p)) (genre_pairs movies).

(** How many genre entries carry the name [g]. *)
Definition genre_count (g : string) (movies : list movie) : Z :=
  Z.of_nat (List.length (List.filter (fun s => (s =? g)%string) (genre_names movies))).

Definition distinct_genres (movies : list movie) : list string :=
  nodup string_dec (genre_names movies).

Definition genre_row (r : string * Z) : value :=
  VDoc [("nombre", VStr (fst r)); ("conteo", VInt (snd r))].

(** The test of [{path: {'$regex': q, '$options': 'i'}}] once the pattern is
    compiled to [found]. *)
Definition name_matches (found : string -> bool) (path : string) (d : value)
  : bool :=
  match get_path path d with
  | Some (VStr s) => found s
  | _ => false
  end.

(** The rows the two searches keep. *)
Definition genre_matches (found : string -> bool) (ds : list value) : list value :=
  List.filter (name_matches found "genres.name") (flat_map (unwind_doc "genres") ds).

Definition director_matches (found : string -> bool) (ds : list value)
  : list value :=
  List.filter (fun d => (is_director_row d && name_matches found "crew.name" d)%bool)
              (flat_map (unwind_doc "crew") ds).

(** The three calls of [stats], in order. *)
Definition stats_calls : list op :=
  [ OpCountDocuments [];
    OpAggregate stats_genre_pipeline;
    OpAggregate stats_director_pipeline ].

(** How many of [k] calls starting at call [n] are made when the handler
    stops at the first that fails. *)
Fixpoint calls_made (E : env) (n k : nat) : nat :=
  match k with
  | O => O
  | S k' =>
      match fault E n with
      | Some _ => 1%nat
      | None => S (calls_made E (S n) k')
      end
  end.

(* ================================================================== *)
(** ** Equality of values *)

Lemma value_eqb_true : forall a b, value_eqb a b = true -> a = b.
Proof.
  fix IH 1.
  intros [| x | x | x | xs | fs] [| y | y | y | ys | gs]; simpl;
    try discriminate; intros H.
  - reflexivity.
  - apply Bool.eqb_prop in H. now subst.
  - apply Z.eqb_eq in H. now subst.
  - apply String.eqb_eq in H. now subst.
  - f_equal. revert ys H.
    induction xs as [| x xs IHxs]; intros [| y ys] H; try discriminate.
    + reflexivity.
    + apply andb_true_iff in H as [H1 H2].
      f_equal; [apply IH; exact H1 | apply IHxs; exact H2].
  - f_equal. revert gs H.
    induction fs as [| [k x] fs IHfs]; intros [| [k' y] gs] H; try discriminate.
    + reflexivity.
    + apply andb_true_iff in H as [H12 H3].
      apply andb_true_iff in H12 as [H1 H2].
      apply String.eqb_eq in H1. subst k'.
      f_equal; [f_equal; apply IH; exact H2 | apply IHfs; exact H3].
Qed.

Lemma value_eqb_refl : forall a, value_eqb a a = true.
Proof.
  fix IH 1.
  intros [| x | x | x | xs | fs]; simpl.
  - reflexivity.
  - apply Bool.eqb_reflx.
  - apply Z.eqb_refl.
  - apply String.eqb_refl.
  - induction xs as [| x xs IHxs]; [reflexivity |].
    rewrite IH. exact IHxs.
  - induction fs as [| [k x] fs IHfs]; [reflexivity |].
    rewrite String.eqb_refl, IH. exact IHfs.
Qed.

Lemma value_eqb_eq (a b : value) : value_eqb a b = true <-> a = b.
Proof.
  split; [apply value_eqb_true | intros ->; apply value_eqb_refl].
Qed.

Lemma value_eqb_neq (a b : value) : value_eqb a b = false <-> a <> b.
Proof.
  split.
  - intros H Heq. subst. rewrite value_eqb_refl in H. discriminate.
  - intros H. destruct (value_eqb a b) eqn:Hab; [| reflexivity].
    apply value_eqb_true in Hab. contradiction.
Qed.

(* ================================================================== *)
(** ** Running store calls *)

Lemma aggregate_run (E : env) (p : pipeline) (st : store) :
  aggregate E p st =
  (match fault E (List.length (calls st)) with
   | Some msg => Raise msg
   | None => run_pipeline E p (docs st)
   end,
   {| docs := docs st; calls := calls st ++ [OpAggregate p] |}).
Proof.
  unfold aggregate, store_call. destruct (fault E _); reflexivity.
Qed.

Lemma filter_all {A : Type} (l : list A) : List.filter (fun _ => true) l = l.
Proof.
  induction l as [| x l IH]; simpl; [reflexivity | now rewrite IH].
Qed.

Lemma count_documents_run (E : env) (st : store) :
  count_documents E [] st =
  (match fault E (List.length (calls st)) with
   | Some msg => Raise msg
   | None => Ok (Z.of_nat (List.length (docs st)))
   end,
   {| docs := docs st; calls := calls st ++ [OpCountDocuments []] |}).
Proof.
  unfold count_documents, store_call. simpl.
  destruct (fault E _); [reflexivity |]. now rewrite filter_all.
Qed.

(* ================================================================== *)
(** ** Computations that only read *)

Lemma reads_only_ret {A : Type} (a : A) : reads_only (ret a).
Proof.
  intros st. split; [reflexivity |].
  exists []. simpl. now rewrite app_nil_r.
Qed.

Lemma reads_only_raise {A : Type} (msg : string) : reads_only (@raise A msg).
Proof.
  intros st. split; [reflexivity |].
  exists []. simpl. now rewrite app_nil_r.
Qed.

Lemma reads_only_bind {A B : Type} (m : M A) (k : A -> M B) :
  reads_only m -> (forall a, reads_only (k a)) -> reads_only (bind m k).
Proof.
  intros Hm Hk st. unfold bind.
  destruct (Hm st) as [Hd [new [Hc Hr]]].
  destruct (m st) as [[a | msg] st']; simpl in *.
  - destruct (Hk a st') as [Hd' [new' [Hc' Hr']]].
    split; [congruence |].
    exists (new ++ new'). split.
    + rewrite Hc', Hc. now rewrite app_assoc.
    + rewrite forallb_app, Hr, Hr'. reflexivity.
  - split; [assumption |]. now exists new.
Qed.

Lemma reads_only_try_except {A : Type} (m : M A) (h : string -> M A) :
  reads_only m -> (forall e, reads_only (h e)) -> reads_only (try_except m h).
Proof.
  intros Hm Hh st. unfold try_except.
  destruct (Hm st) as [Hd [new [Hc Hr]]].
  destruct (m st) as [[a | msg] st']; simpl in *.
  - split; [assumption |]. now exists new.
  - destruct (Hh msg st') as [Hd' [new' [Hc' Hr']]].
    split; [congruence |].
    exists (new ++ new'). split.
    + rewrite Hc', Hc. now rewrite app_assoc.
    + rewrite forallb_app, Hr, Hr'. reflexivity.
Qed.

Lemma reads_only_aggregate (E : env) (p : pipeline) : reads_only (aggregate E p).
Proof.
  intros st. rewrite aggregate_run. simpl. split; [reflexivity |].
  now exists [OpAggregate p].
Qed.

Lemma reads_only_count_documents (E : env) (f : match_spec) :
  reads_only (count_documents E f).
Proof.
  intros st. unfold count_documents, store_call.
  destruct (fault E _); [| destruct (compile_match E f)]; simpl;
    (split; [reflexivity | now exists [OpCountDocuments f]]).
Qed.

Lemma reads_only_getitem (item : value) (key : string) :
  reads_only (getitem item key).
Proof.
  unfold getitem.
  destruct item; try apply reads_only_raise.
  destruct (assoc key fields); [apply reads_only_ret | apply reads_only_raise].
Qed.

Lemma reads_only_map_M {A B : Type} (f : A -> M B) (l : list A) :
  (forall x, reads_only (f x)) -> reads_only (map_M f l).
Proof.
  intros Hf. induction l as [| x l IH]; simpl.
  - apply reads_only_ret.
  - apply reads_only_bind; [apply Hf | intros y].
    apply reads_only_bind; [exact IH | intros ys]. apply reads_only_ret.
Qed.

Create HintDb reads discriminated.
#[local] Hint Resolve reads_only_ret reads_only_raise reads_only_aggregate
  reads_only_count_documents reads_only_getitem : reads.

Ltac reads_only_step :=
  first [ apply reads_only_try_except; [| intros ?]
        | apply reads_only_bind; [| intros ?]
        | apply reads_only_map_M; intros ?
        | solve [auto with reads] ].

Lemma reads_only_format_genre (item : value) : reads_only (format_genre item).
Proof. unfold format_genre. repeat reads_only_step. Qed.

Lemma reads_only_format_director (item : value) :
  reads_only (format_director item).
Proof. unfold format_director. repeat reads_only_step. Qed.

Lemma reads_only_error_500 (e : string) : reads_only (error_500 e).
Proof. apply reads_only_ret. Qed.

#[local] Hint Resolve reads_only_format_genre reads_only_format_director
  reads_only_error_500 : reads.

(** A write is not a read: the frame property below is not a property of
    every store call. *)
Lemma insert_one_writes (d : value) :
  ~ reads_only (insert_one plain_env d).
Proof.
  intros H.
  destruct (H {| docs := []; calls := [] |}) as [Hd _].
  discriminate Hd.
Qed.

(** Claim C9.  No handler modifies the collection: after any request the
    documents are those of before, and every call the handler made to the
    store is an aggregation or a document count. *)
Theorem handlers_read_only (E : env) (args : query_args) :
  reads_only index /\
  reads_only (get_top_genres E args) /\
  reads_only (get_top_directors_revenue E args) /\
  reads_only (search E args) /\
  reads_only (get_stats E).
Proof.
  refine (conj _ (conj _ (conj _ (conj _ _)))).
  - apply reads_only_ret.
  - unfold get_top_genres, get_top_genres_body.
    repeat reads_only_step.
  - unfold get_top_directors_revenue, get_top_directors_revenue_body.
    repeat reads_only_step.
  - unfold search, search_body.
    apply reads_only_try_except; [| intros ?; auto with reads].
    destruct (_ =? _)%string; repeat reads_only_step.
  - unfold get_stats, get_stats_body.
    apply reads_only_try_except; [| intros ?; auto with reads].
    apply reads_only_bind; [auto with reads | intros n].
    apply reads_only_bind; [auto with reads | intros gs].
    apply reads_only_bind;
      [destruct gs; auto with reads | intros t].
    repeat reads_only_step.
Qed.

(* ================================================================== *)
(** ** The index endpoint *)

(** Claim C6, as the code has it.  [GET /] returns status 200 and the static
    payload [{"status": "API corriendo", "db_conectada": true}], whatever
    the state of the store, which it neither reads nor changes. *)
Theorem index_static_payload (st : store) :
  index st =
  (Ok {| body := VDoc [("status", VStr "API corriendo");
                       ("db_conectada", VBool true)];
         status := 200 |},
   st).
Proof. reflexivity. Qed.

(** The payload is not the one with the English key and text. *)
Lemma index_payload_is_not_english :
  fst (index (collection_of [])) <>
  Ok {| body := VDoc [("status", VStr "API running"); ("db_connected", VBool true)];
        status := 200 |}.
Proof. simpl. intros H. discriminate H. Qed.

(* ================================================================== *)
(** ** Parameter validation *)

Lemma args_get_absent {A : Type} (args : query_args) (key : string) (default : A)
  (type : string -> option A) :
  assoc key args = None -> args_get args key default type = default.
Proof. unfold args_get. now intros ->. Qed.

Lemma args_get_present {A : Type} (args : query_args) (key s : string)
  (default v : A) (type : string -> option A) :
  assoc key args = Some s -> type s = Some v ->
  args_get args key default type = v.
Proof. unfold args_get. now intros -> ->. Qed.

Lemma args_get_unparsable {A : Type} (args : query_args) (key s : string)
  (default : A) (type : string -> option A) :
  assoc key args = Some s -> type s = None ->
  args_get args key default type = default.
Proof. unfold args_get. now intros -> ->. Qed.

Lemma search_query_present (args : query_args) (q : string) :
  assoc "q" args = Some q -> args_get args "q" "" py_str = q.
Proof. intros H. now apply args_get_present with (s := q). Qed.

(** The instance of [int] on some texts: blanks and a sign are read; a
    control character, a doubled underscore and a blank after the sign are
    not. *)
Lemma ascii_int_examples :
  ascii_int " 12 " = Some 12 /\
  ascii_int "+1_000" = Some 1000 /\
  ascii_int "-07" = Some (-7) /\
  ascii_int (String (ascii_of_nat 31) "7") = None /\
  ascii_int (String "7" (String (ascii_of_nat 28) "")) = None /\
  ascii_int "1__0" = None /\
  ascii_int "- 1" = None /\
  ascii_int "" = None.
Proof.
  repeat split; reflexivity.
Qed.

(** More than 4300 digits are not read, leading zeros included. *)
Lemma ascii_int_digit_bound (s : string) :
  4300 < digit_count (lstrip (rstrip s)) -> ascii_int s = None.
Proof.
  intros H. unfold ascii_int, max_str_digits.
  apply Z.ltb_lt in H. now rewrite H.
Qed.

Lemma sort_direction_descending (args : query_args) :
  assoc "sort" args = None \/ assoc "sort" args = Some "desc" ->
  sort_direction args = -1.
Proof.
  unfold sort_direction. intros [H | H].
  - now rewrite (args_get_absent _ _ _ _ H).
  - now rewrite (args_get_present _ _ _ _ _ _ H eq_refl).
Qed.

Lemma sort_direction_ascending (args : query_args) (s : string) :
  assoc "sort" args = Some s -> s <> "desc" -> sort_direction args = 1.
Proof.
  unfold sort_direction. intros H Hs.
  rewrite (args_get_present _ _ _ _ _ _ H eq_refl).
  apply String.eqb_neq in Hs. now rewrite Hs.
Qed.

(** Claim C2, as the code has it.  The sort parameter maps to descending
    (-1) when it is absent or the exact string "desc", and to ascending (1)
    for every other value that is supplied. *)
Theorem sort_direction_mapping (args : query_args) :
  (assoc "sort" args = None -> sort_direction args = -1) /\
  (assoc "sort" args = Some "desc" -> sort_direction args = -1) /\
  (forall s, assoc "sort" args = Some s -> s <> "desc" ->
             sort_direction args = 1).
Proof.
  split; [| split].
  - intros H. apply sort_direction_descending. now left.
  - intros H. apply sort_direction_descending. now right.
  - apply sort_direction_ascending.
Qed.

Lemma sort_direction_mapping_witness :
  sort_direction [] = -1 /\
  sort_direction [("sort", "desc")] = -1 /\
  sort_direction [("sort", "asc")] = 1 /\
  sort_direction [("sort", "xyz")] = 1.
Proof.
  split; [| split; [| split]].
  - destruct (sort_direction_mapping []) as [H _]. apply H. reflexivity.
  - destruct (sort_direction_mapping [("sort", "desc")]) as [_ [H _]].
    apply H. reflexivity.
  - destruct (sort_direction_mapping [("sort", "asc")]) as [_ [_ H]].
    apply (H "asc"); [reflexivity | discriminate].
  - destruct (sort_direction_mapping [("sort", "xyz")]) as [_ [_ H]].
    apply (H "xyz"); [reflexivity | discriminate].
Defined.

(** An absent sort parameter does not map to ascending. *)
Lemma sort_absent_is_descending :
  assoc "sort" ([] : query_args) = None /\
  sort_direction [] = -1 /\ sort_direction [] <> 1.
Proof. repeat split. discriminate. Qed.

Lemma sort_direction_cases (args : query_args) :
  sort_direction args = 1 \/ sort_direction args = -1.
Proof.
  unfold sort_direction. destruct (_ =? _)%string; [now right | now left].
Qed.

Lemma get_top_genres_limit_range (E : env) (args : query_args) :
  1 <= get_top_genres_limit E args <= 50.
Proof. unfold get_top_genres_limit. lia. Qed.

Lemma get_top_directors_revenue_limit_range (E : env) (args : query_args) :
  1 <= get_top_directors_revenue_limit E args <= 30.
Proof. unfold get_top_directors_revenue_limit. lia. Qed.

(* ================================================================== *)
(** ** The state after a handler *)

Lemma snd_getitem (item : value) (key : string) (st : store) :
  snd (getitem item key st) = st.
Proof.
  unfold getitem. destruct item; try reflexivity.
  destruct (assoc key fields); reflexivity.
Qed.

Lemma snd_bind_pure {A B : Type} (m : M A) (k : A -> M B) :
  (forall st, snd (m st) = st) -> (forall a st, snd (k a st) = st) ->
  forall st, snd (bind m k st) = st.
Proof.
  intros Hm Hk st. unfold bind. specialize (Hm st).
  destruct (m st) as [[a | msg] st']; simpl in *; subst; [apply Hk | reflexivity].
Qed.

Lemma snd_format_genre (item : value) (st : store) :
  snd (format_genre item st) = st.
Proof.
  unfold format_genre. revert st.
  apply snd_bind_pure; [apply snd_getitem | intros a].
  apply snd_bind_pure; [apply snd_getitem | reflexivity].
Qed.

Lemma snd_format_director (item : value) (st : store) :
  snd (format_director item st) = st.
Proof.
  unfold format_director. revert st.
  apply snd_bind_pure; [apply snd_getitem | intros a].
  apply snd_bind_pure; [apply snd_getitem | reflexivity].
Qed.

Lemma snd_map_M {A B : Type} (f : A -> M B) (l : list A) :
  (forall x st, snd (f x st) = st) -> forall st, snd (map_M f l st) = st.
Proof.
  intros Hf. induction l as [| x l IH]; simpl; [reflexivity |].
  apply snd_bind_pure; [apply Hf | intros y].
  apply snd_bind_pure; [exact IH | reflexivity].
Qed.

(** A report handler makes exactly one call: the aggregation of its
    pipeline. *)
Lemma report_store (E : env) (p : pipeline) (f : value -> M value) (st : store) :
  (forall x st', snd (f x st') = st') ->
  snd (try_except
         (data <- aggregate E p ;;
          formatted_data <- map_M f data ;;
          ret (jsonify (VArr formatted_data)))
         error_500 st)
  = {| docs := docs st; calls := calls st ++ [OpAggregate p] |}.
Proof.
  intros Hf. unfold try_except, bind. rewrite aggregate_run.
  destruct (match fault E _ with Some _ => _ | None => _ end) as [data | msg];
    [| reflexivity].
  pose proof (snd_map_M f data Hf
                {| docs := docs st; calls := calls st ++ [OpAggregate p] |}) as Hs.
  destruct (map_M f data _) as [[ys | msg] st']; simpl in Hs; subst; reflexivity.
Qed.

(** Claim C3.  The limit of the pipeline sent to the store is the supplied
    integer clamped into [1,50] for top_generos and into [1,30] for
    top_directores_ingresos: the bound above it, 1 below 1, the value itself
    in between; the defaults 10 and 5 stand in when the parameter is absent
    or the interpreter's [int] does not read it. *)
Theorem limit_is_clamped (E : env) (args : query_args) (st : store) :
  calls (snd (get_top_genres E args st)) =
    calls st ++ [OpAggregate [ Unwind "genres";
                               Group (EField "genres.name")
                                     [("conteo", Sum (EConst (VInt 1)))];
                               Sort "conteo" (sort_direction args);
                               Limit (get_top_genres_limit E args) ]] /\
  calls (snd (get_top_directors_revenue E args st)) =
    calls st ++ [OpAggregate [ Unwind "crew";
                               Match [("crew.job", CEq (VStr "Director"))];
                               Group (EField "crew.name")
                                     [("ingresos_totales", Sum (EField "revenue"))];
                               Sort "ingresos_totales" (sort_direction args);
                               Limit (get_top_directors_revenue_limit E args) ]] /\
  (forall s n, assoc "limit" args = Some s -> py_int E s = Some n ->
     get_top_genres_limit E args = Z.max 1 (Z.min n 50) /\
     get_top_directors_revenue_limit E args = Z.max 1 (Z.min n 30) /\
     (50 < n -> get_top_genres_limit E args = 50) /\
     (30 < n -> get_top_directors_revenue_limit E args = 30) /\
     (n < 1 -> get_top_genres_limit E args = 1 /\
               get_top_directors_revenue_limit E args = 1) /\
     (1 <= n <= 50 -> get_top_genres_limit E args = n) /\
     (1 <= n <= 30 -> get_top_directors_revenue_limit E args = n)) /\
  (assoc "limit" args = None \/
   (exists s, assoc "limit" args = Some s /\ py_int E s = None) ->
     get_top_genres_limit E args = 10 /\
     get_top_directors_revenue_limit E args = 5).
Proof.
  split; [| split; [| split]].
  - unfold get_top_genres, get_top_genres_body.
    rewrite report_store by apply snd_format_genre. reflexivity.
  - unfold get_top_directors_revenue, get_top_directors_revenue_body.
    rewrite report_store by apply snd_format_director. reflexivity.
  - intros s n Hs Hn.
    unfold get_top_genres_limit, get_top_directors_revenue_limit.
    rewrite !(args_get_present _ _ _ _ _ _ Hs Hn).
    repeat split; lia.
  - unfold get_top_genres_limit, get_top_directors_revenue_limit.
    intros [H | [s [Hs Hn]]].
    + rewrite !(args_get_absent _ _ _ _ H). split; reflexivity.
    + rewrite !(args_get_unparsable _ _ _ _ _ Hs Hn). split; reflexivity.
Qed.

Lemma limit_is_clamped_witness :
  get_top_genres_limit plain_env [("limit", "999")] = 50 /\
  get_top_directors_revenue_limit plain_env [("limit", "999")] = 30 /\
  get_top_genres_limit plain_env [("limit", "-7")] = 1 /\
  get_top_directors_revenue_limit plain_env [("limit", "0")] = 1 /\
  get_top_genres_limit plain_env [("limit", "37")] = 37 /\
  get_top_genres_limit plain_env [("limit", "abc")] = 10 /\
  get_top_genres_limit plain_env [("limit", String (ascii_of_nat 31) "7")] = 10 /\
  get_top_directors_revenue_limit plain_env [] = 5.
Proof.
  pose (st := collection_of []).
  destruct (limit_is_clamped plain_env [("limit", "999")] st) as [_ [_ [H1 _]]].
  destruct (H1 "999" 999 eq_refl eq_refl) as [_ [_ [G1 [G2 _]]]].
  destruct (limit_is_clamped plain_env [("limit", "-7")] st) as [_ [_ [H3 _]]].
  destruct (H3 "-7" (-7) eq_refl eq_refl) as [_ [_ [_ [_ [G3 _]]]]].
  destruct (limit_is_clamped plain_env [("limit", "0")] st) as [_ [_ [H4 _]]].
  destruct (H4 "0" 0 eq_refl eq_refl) as [_ [_ [_ [_ [G4 _]]]]].
  destruct (limit_is_clamped plain_env [("limit", "37")] st) as [_ [_ [H5 _]]].
  destruct (H5 "37" 37 eq_refl eq_refl) as [_ [_ [_ [_ [_ [G5 _]]]]]].
  destruct (limit_is_clamped plain_env [("limit", "abc")] st) as [_ [_ [_ H6]]].
  destruct (limit_is_clamped plain_env [] st) as [_ [_ [_ H7]]].
  destruct (limit_is_clamped plain_env
              [("limit", String (ascii_of_nat 31) "7")] st) as [_ [_ [_ H8]]].
  split; [apply G1; lia |].
  split; [apply G2; lia |].
  split; [apply G3; lia |].
  split; [apply G4; lia |].
  split; [apply G5; lia |].
  split; [apply H6; right; exists "abc"; split; reflexivity |].
  split.
  - apply H8. right. exists (String (ascii_of_nat 31) "7"). split; reflexivity.
  - apply H7. left. reflexivity.
Defined.

(* ================================================================== *)
(** ** Exceptions stop at the handler *)

Lemma try_except_catches_all (handler_body : M response) :
  catches_all handler_body (try_except handler_body error_500).
Proof.
  intros st. unfold try_except.
  destruct (handler_body st) as [[resp | e] st']; simpl.
  - split; [now exists resp |]. split; [intros r H; exact H | discriminate].
  - split; [now exists (error_response e) |].
    split; [discriminate | intros e' H; now inversion H].
Qed.

Lemma run_pipeline_accepted (E : env) (p : pipeline) (rows : list value) :
  forallb (stage_accepted E) p = true ->
  exists out, run_pipeline E p rows = Ok out.
Proof.
  revert rows. induction p as [| s p IH]; intros rows Hp; simpl.
  - now exists rows.
  - simpl in Hp. apply andb_true_iff in Hp as [Hs Hp].
    assert (Hstage : exists rows', run_stage E s rows = Ok rows').
    { destruct s; simpl in *; try (eexists; reflexivity).
      - destruct (compile_match E m); [eexists; reflexivity | discriminate].
      - unfold sort_rows. apply orb_true_iff in Hs as [Hs | Hs].
        + rewrite Hs. eexists; reflexivity.
        + rewrite Hs. destruct (direction =? 1); eexists; reflexivity.
      - rewrite Hs. eexists; reflexivity.
      - destruct rows; eexists; reflexivity. }
    destruct Hstage as [rows' ->]. now apply IH.
Qed.

Lemma calls_after (log : list op) (o : op) :
  List.length (log ++ [o]) = S (List.length log).
Proof. rewrite length_app. simpl. lia. Qed.

Lemma report_fault (E : env) (p : pipeline) (f : value -> M value)
  (st : store) (msg : string) :
  first_fault E (List.length (calls st)) 1 = Some msg ->
  fst (try_except
         (data <- aggregate E p ;;
          formatted_data <- map_M f data ;;
          ret (jsonify (VArr formatted_data)))
         error_500 st)
  = Ok (error_response msg).
Proof.
  simpl. intros H. unfold try_except, bind. rewrite aggregate_run.
  destruct (fault E _); [| discriminate]. now inversion H.
Qed.

Lemma search_fault (E : env) (args : query_args) (st : store)
  (q msg : string) (found : string -> bool) :
  assoc "q" args = Some q -> q <> "" ->
  regex_compile E q "i" = Ok found ->
  first_fault E (List.length (calls st)) 2 = Some msg ->
  fst (search E args st) = Ok (error_response msg).
Proof.
  intros Hq Hne Hcompile Hfault. simpl in Hfault.
  unfold search, search_body, try_except, bind.
  rewrite (search_query_present _ _ Hq).
  apply String.eqb_neq in Hne. rewrite Hne.
  rewrite aggregate_run.
  destruct (fault E (List.length (calls st))) as [m |];
    [now inversion Hfault |].
  destruct (run_pipeline_accepted E (search_genre_pipeline q) (docs st))
    as [genres0 ->].
  { cbn. now rewrite Hcompile. }
  rewrite aggregate_run. cbn [calls]. rewrite calls_after.
  destruct (fault E (S _)); [| discriminate]. now inversion Hfault.
Qed.

Lemma get_stats_fault (E : env) (st : store) (msg : string) :
  first_fault E (List.length (calls st)) 3 = Some msg ->
  fst (get_stats E st) = Ok (error_response msg).
Proof.
  intros Hfault. simpl in Hfault.
  unfold get_stats, get_stats_body, try_except, bind.
  rewrite count_documents_run.
  destruct (fault E (List.length (calls st))) as [m |];
    [now inversion Hfault |].
  rewrite aggregate_run. cbn [calls docs]. rewrite calls_after.
  destruct (fault E (S (List.length (calls st)))) as [m |];
    [now inversion Hfault |].
  assert (Htotal : exists rows total,
            run_pipeline E stats_genre_pipeline (docs st) = Ok rows /\
            forall st',
              match rows with
              | first :: _ => getitem first "total"
              | [] => ret (VInt 0)
              end st' = (Ok total, st')).
  { cbn [stats_genre_pipeline run_pipeline run_stage].
    destruct (group_rows E _ _ _); eexists; eexists; split;
      try reflexivity; intros st'; reflexivity. }
  destruct Htotal as [rows [total [-> Htotal]]].
  rewrite Htotal.
  rewrite aggregate_run. cbn [calls docs]. rewrite !calls_after.
  destruct (fault E (S (S _))); [| discriminate]. now inversion Hfault.
Qed.

(** Claim C8.  In each of the four endpoints that touch the store, an
    exception raised anywhere in the handler's logic is caught at the
    handler: the handler itself never raises, and when its logic raises [e]
    the response is status 500 with body [{"error": e}] and nothing else.
    In particular a store call that fails, the first or a later one of the
    request, gives the 500 response with the message of that failure,
    whatever the earlier calls returned. *)
Theorem exceptions_become_500 (E : env) (args : query_args) :
  (catches_all (get_top_genres_body E args) (get_top_genres E args) /\
   catches_all (get_top_directors_revenue_body E args)
               (get_top_directors_revenue E args) /\
   catches_all (search_body E args) (search E args) /\
   catches_all (get_stats_body E) (get_stats E)) /\
  (forall st msg,
     first_fault E (List.length (calls st)) 1 = Some msg ->
     fst (get_top_genres E args st) = Ok (error_response msg) /\
     fst (get_top_directors_revenue E args st) = Ok (error_response msg)) /\
  (forall st q msg found,
     assoc "q" args = Some q -> q <> "" ->
     regex_compile E q "i" = Ok found ->
     first_fault E (List.length (calls st)) 2 = Some msg ->
     fst (search E args st) = Ok (error_response msg)) /\
  (forall st msg,
     first_fault E (List.length (calls st)) 3 = Some msg ->
     fst (get_stats E st) = Ok (error_response msg)).
Proof.
  split; [repeat apply conj; apply try_except_catches_all |].
  split; [| split].
  - intros st msg H. split; now apply report_fault.
  - intros st q msg found. apply search_fault.
  - intros st msg. apply get_stats_fault.
Qed.

(** The third store call of [stats] fails after two have succeeded, the
    second call of [search] after the first: the response is the error alone. *)
Lemma exceptions_become_500_witness :
  let E := faulty_env (fun n => if Nat.eqb n 2 then Some "connection closed"
                                else None) in
  let E' := faulty_env (fun n => if Nat.eqb n 1 then Some "timed out"
                                 else None) in
  let st := collection_of two_movies in
  fst (get_stats_body E st) = Raise "connection closed" /\
  fst (get_stats E st) =
    Ok {| body := VDoc [("error", VStr "connection closed")]; status := 500 |} /\
  fst (search E' [("q", "dra")] st) =
    Ok {| body := VDoc [("error", VStr "timed out")]; status := 500 |} /\
  fst (get_stats E {| docs := []; calls := [] |}) =
    Ok {| body := VDoc [("error", VStr "connection closed")]; status := 500 |}.
Proof.
  intros E E' st.
  assert (Hbody : fst (get_stats_body E st) = Raise "connection closed")
    by reflexivity.
  destruct (exceptions_become_500 E []) as [[_ [_ [_ Hcatch]]] [_ [_ Hstats]]].
  destruct (exceptions_become_500 E' [("q", "dra")]) as [_ [_ [Hsearch _]]].
  split; [exact Hbody |].
  split; [| split].
  - destruct (Hcatch st) as [_ [_ Hraise]]. exact (Hraise _ Hbody).
  - destruct (Regex.compile "dra" "i") as [found |] eqn:Hc; [| discriminate Hc].
    apply (Hsearch st "dra" "timed out" found);
      [reflexivity | discriminate | exact Hc | reflexivity].
  - exact (Hstats {| docs := []; calls := [] |} "connection closed" eq_refl).
Defined.

(* ================================================================== *)
(** ** Summary statistics on an empty collection *)

Lemma group_rows_nil (E : env) (id : expr) (accs : list (string * accumulator)) :
  group_rows E id accs [] = [].
Proof.
  unfold group_rows. simpl.
  apply Permutation_nil. apply group_order_perm.
Qed.

(** Claim C7.  On an empty collection, with a store that answers its calls,
    [stats] returns status 200 and exactly
    [{"total_movies": 0, "total_genres": 0, "top_director": null}]. *)
Theorem stats_of_empty_collection (E : env) (st : store) :
  healthy E -> docs st = [] ->
  fst (get_stats E st) =
  Ok {| body := VDoc [("total_movies", VInt 0);
                      ("total_genres", VInt 0);
                      ("top_director", VNull)];
        status := 200 |}.
Proof.
  intros Hh Hd.
  unfold get_stats, get_stats_body, try_except, bind.
  rewrite count_documents_run, Hh, Hd. simpl.
  rewrite aggregate_run, Hh. simpl.
  rewrite group_rows_nil. simpl.
  rewrite aggregate_run, Hh. simpl.
  rewrite group_rows_nil. reflexivity.
Qed.

Lemma stats_of_empty_collection_witness :
  fst (get_stats plain_env (collection_of [])) =
  Ok {| body := VDoc [("total_movies", VInt 0);
                      ("total_genres", VInt 0);
                      ("top_director", VNull)];
        status := 200 |}.
Proof.
  apply (stats_of_empty_collection plain_env (collection_of [])).
  - intros n. reflexivity.
  - reflexivity.
Defined.

(* ================================================================== *)
(** ** Search *)

(** Claim C4, as the code has it.  When [q] is missing or empty, [search]
    answers 400 with [{"error": "Parámetro 'q' requerido"}] and makes no call
    to the store.  When [q] is not empty the genre search is sent to the
    store, and the director search is sent after it when the genre search
    returned without raising; nothing else is sent. *)
Theorem search_requires_q (E : env) (args : query_args) (st : store) :
  (assoc "q" args = None \/ assoc "q" args = Some "" ->
   search E args st =
   (Ok {| body := VDoc [("error", VStr "Parámetro 'q' requerido")];
          status := 400 |},
    st)) /\
  (forall q, assoc "q" args = Some q -> q <> "" ->
   calls (snd (search E args st)) =
   calls st ++
   OpAggregate (search_genre_pipeline q) ::
   match fst (aggregate E (search_genre_pipeline q) st) with
   | Ok _ => [OpAggregate (search_director_pipeline q)]
   | Raise _ => []
   end).
Proof.
  split.
  - intros H. unfold search, search_body, try_except.
    assert (Hq : args_get args "q" "" py_str = "").
    { destruct H as [H | H];
        [now apply args_get_absent | now apply search_query_present]. }
    rewrite Hq. reflexivity.
  - intros q Hq Hne. unfold search, search_body, try_except, bind.
    rewrite (search_query_present _ _ Hq).
    apply String.eqb_neq in Hne. rewrite Hne.
    rewrite aggregate_run.
    destruct (match fault E _ with Some _ => _ | None => _ end)
      as [genres0 | msg]; simpl; [| reflexivity].
    rewrite aggregate_run.
    destruct (match fault E _ with Some _ => _ | None => _ end)
      as [directors0 | msg]; simpl; [| now rewrite <- app_assoc].
    match goal with
    | |- context [map_M format_genre genres0 ?s] =>
        pose proof (snd_map_M format_genre genres0 snd_format_genre s) as Hs;
        destruct (map_M format_genre genres0 s) as [[gs | msg] st1]
    end; simpl in Hs; subst st1; simpl; [| now rewrite <- app_assoc].
    match goal with
    | |- context [map_M format_director directors0 ?s] =>
        pose proof (snd_map_M format_director directors0 snd_format_director s)
          as Hs;
        destruct (map_M format_director directors0 s) as [[ds | msg] st1]
    end; simpl in Hs; subst st1; simpl; now rewrite <- app_assoc.
Qed.

Lemma search_requires_q_witness :
  let st := collection_of [ {| genres := [ {| genre_name := "Drama" |} ];
                               crew := [ {| crew_name := "Ana";
                                            crew_job := "Director" |} ];
                               revenue := 100; other := [] |} ] in
  search plain_env [] st =
    (Ok {| body := VDoc [("error", VStr "Parámetro 'q' requerido")];
           status := 400 |}, st) /\
  search plain_env [("q", "")] st =
    (Ok {| body := VDoc [("error", VStr "Parámetro 'q' requerido")];
           status := 400 |}, st) /\
  calls (snd (search plain_env [("q", "dra")] st)) =
    [OpAggregate (search_genre_pipeline "dra");
     OpAggregate (search_director_pipeline "dra")].
Proof.
  intros st.
  destruct (search_requires_q plain_env [] st) as [H1 _].
  destruct (search_requires_q plain_env [("q", "")] st) as [H2 _].
  destruct (search_requires_q plain_env [("q", "dra")] st) as [_ H3].
  split; [apply H1; now left |].
  split; [apply H2; now right |].
  rewrite (H3 "dra" eq_refl); [reflexivity | discriminate].
Defined.

(** With [q = "("] the genre search is rejected by the store and the
    director search is never made. *)
Lemma search_open_paren_skips_directors :
  let st := collection_of [ {| genres := [ {| genre_name := "Drama" |} ];
                               crew := [ {| crew_name := "Ana";
                                            crew_job := "Director" |} ];
                               revenue := 100; other := [] |} ] in
  calls (snd (search plain_env [("q", "(")] st)) =
    [OpAggregate (search_genre_pipeline "(")] /\
  ~ In (OpAggregate (search_director_pipeline "("))
       (calls (snd (search plain_env [("q", "(")] st))).
Proof.
  intros st.
  assert (H : calls (snd (search plain_env [("q", "(")] st)) =
              [OpAggregate (search_genre_pipeline "(")]) by reflexivity.
  split; [exact H |].
  rewrite H. intros [Hin | []]. discriminate Hin.
Qed.

(* ================================================================== *)
(** ** Sorting *)

Section SortBy.

Variable le : value -> value -> bool.

Lemma insert_by_perm (x : value) (l : list value) :
  Permutation (x :: l) (insert_by le x l).
Proof.
  induction l as [| y l IH]; simpl.
  - apply Permutation_refl.
  - destruct (le x y).
    + apply Permutation_refl.
    + eapply perm_trans; [apply perm_swap | apply perm_skip, IH].
Qed.

Lemma sort_by_perm (l : list value) : Permutation l (sort_by le l).
Proof.
  induction l as [| x l IH]; simpl.
  - apply perm_nil.
  - eapply perm_trans; [apply perm_skip, IH | apply insert_by_perm].
Qed.

(** [le] decides a relation [R] on the rows that satisfy [P]. *)
Variable P : value -> Prop.
Variable R : value -> value -> Prop.
Hypothesis le_true : forall a b, P a -> P b -> le a b = true -> R a b.
Hypothesis le_false : forall a b, P a -> P b -> le a b = false -> R b a.

Lemma insert_by_hd (x y : value) (l : list value) :
  R y x -> HdRel R y l -> HdRel R y (insert_by le x l).
Proof.
  intros Hyx Hhd. destruct l as [| z l]; simpl.
  - now constructor.
  - destruct (le x z); constructor; [assumption |].
    now apply HdRel_inv in Hhd.
Qed.

Lemma insert_by_sorted (x : value) (l : list value) :
  P x -> Forall P l -> Sorted R l -> Sorted R (insert_by le x l).
Proof.
  intros Hx Hl Hs. induction l as [| y l IH]; simpl.
  - repeat constructor.
  - apply Forall_cons_iff in Hl as [Hy Hl].
    apply Sorted_inv in Hs as [Hs Hhd].
    destruct (le x y) eqn:Hle.
    + constructor; [now constructor |].
      constructor. now apply le_true.
    + constructor; [now apply IH |].
      apply insert_by_hd; [now apply le_false | assumption].
Qed.

Lemma sort_by_sorted (l : list value) :
  Forall P l -> Sorted R (sort_by le l).
Proof.
  induction l as [| x l IH]; intros Hl; simpl.
  - constructor.
  - apply Forall_cons_iff in Hl as [Hx Hl].
    apply insert_by_sorted; [assumption | | now apply IH].
    eapply Permutation_Forall; [apply sort_by_perm | exact Hl].
Qed.

End SortBy.

Lemma Sorted_firstn {A : Type} (R : A -> A -> Prop) (n : nat) (l : list A) :
  Sorted R l -> Sorted R (firstn n l).
Proof.
  revert l. induction n as [| n IH]; intros l Hs; simpl; [constructor |].
  destruct l as [| x l]; [constructor |].
  apply Sorted_inv in Hs as [Hs Hhd].
  constructor; [now apply IH |].
  destruct n; simpl; [constructor |].
  destruct l; [constructor |]. constructor. now apply HdRel_inv in Hhd.
Qed.

Lemma Sorted_map_key {A : Type} (key : A -> Z) (R : Z -> Z -> Prop) (l : list A) :
  Sorted (fun a b => R (key a) (key b)) l -> Sorted R (map key l).
Proof.
  induction 1 as [| x l Hs IH Hhd]; simpl; constructor; [assumption |].
  destruct Hhd; simpl; now constructor.
Qed.

(** The sort key of a grouped row is its total. *)
Lemma sort_key_row (field : string) (r : value * Z) :
  ("_id" =? field)%string = false -> split_dot field = [field] ->
  sort_key field (row field r) = VInt (snd r).
Proof.
  intros Hid Hsplit. unfold sort_key, get_path, row. rewrite Hsplit.
  cbn [get_path_list get_field assoc].
  now rewrite Hid, String.eqb_refl.
Qed.

Lemma sort_rows_of_table (field : string) (direction : Z) (rs : list (value * Z)) :
  ("_id" =? field)%string = false -> split_dot field = [field] ->
  direction = 1 \/ direction = -1 ->
  exists rs',
    sort_rows field direction (map (row field) rs) = Ok (map (row field) rs') /\
    Permutation rs rs' /\
    (direction = 1 -> Sorted Z.le (map snd rs')) /\
    (direction = -1 -> Sorted Z.ge (map snd rs')).
Proof.
  intros Hid Hsplit Hdir. unfold sort_rows.
  set (P := fun d : value => exists r, d = row field r).
  assert (HP : Forall P (map (row field) rs)).
  { apply Forall_forall. intros d Hd. apply in_map_iff in Hd as [r [<- _]].
    now exists r. }
  destruct Hdir as [-> | ->]; simpl.
  - set (le := fun a b => value_leb (sort_key field a) (sort_key field b)).
    destruct (Permutation_map_inv (row field) rs
                (Permutation_sym (sort_by_perm le (map (row field) rs))))
      as [rs' [Heq Hperm]].
    exists rs'. rewrite Heq. repeat split; [assumption | | discriminate].
    intros _.
    assert (Hs : Sorted (fun a b => exists x y, sort_key field a = VInt x /\
                                         sort_key field b = VInt y /\ x <= y)
                        (sort_by le (map (row field) rs))).
    { apply sort_by_sorted with (P := P); [| | exact HP].
      - intros a b [ra ->] [rb ->] H. unfold le in H.
        rewrite !sort_key_row in * by assumption. simpl in H.
        exists (snd ra), (snd rb). repeat split. now apply Z.leb_le.
      - intros a b [ra ->] [rb ->] H. unfold le in H.
        rewrite !sort_key_row in * by assumption. simpl in H.
        exists (snd rb), (snd ra). repeat split. apply Z.leb_gt in H. lia. }
    rewrite Heq in Hs. clear - Hs Hid Hsplit.
    induction rs' as [| r rs' IH]; simpl in *; [constructor |].
    apply Sorted_inv in Hs as [Hs Hhd].
    constructor; [now apply IH |].
    destruct rs' as [| r' rs']; simpl in *; constructor.
    apply HdRel_inv in Hhd as [x [y [Hx [Hy Hxy]]]].
    rewrite sort_key_row in Hx, Hy by assumption.
    inversion Hx; inversion Hy; subst. exact Hxy.
  - set (le := fun a b => value_leb (sort_key field b) (sort_key field a)).
    destruct (Permutation_map_inv (row field) rs
                (Permutation_sym (sort_by_perm le (map (row field) rs))))
      as [rs' [Heq Hperm]].
    exists rs'. rewrite Heq. repeat split; [assumption | discriminate |].
    intros _.
    assert (Hs : Sorted (fun a b => exists x y, sort_key field a = VInt x /\
                                         sort_key field b = VInt y /\ x >= y)
                        (sort_by le (map (row field) rs))).
    { apply sort_by_sorted with (P := P); [| | exact HP].
      - intros a b [ra ->] [rb ->] H. unfold le in H.
        rewrite !sort_key_row in * by assumption. simpl in H.
        exists (snd ra), (snd rb). repeat split. apply Z.leb_le in H. lia.
      - intros a b [ra ->] [rb ->] H. unfold le in H.
        rewrite !sort_key_row in * by assumption. simpl in H.
        exists (snd rb), (snd ra). repeat split. apply Z.leb_gt in H. lia. }
    rewrite Heq in Hs. clear - Hs Hid Hsplit.
    induction rs' as [| r rs' IH]; simpl in *; [constructor |].
    apply Sorted_inv in Hs as [Hs Hhd].
    constructor; [now apply IH |].
    destruct rs' as [| r' rs']; simpl in *; constructor.
    apply HdRel_inv in Hhd as [x [y [Hx [Hy Hxy]]]].
    rewrite sort_key_row in Hx, Hy by assumption.
    inversion Hx; inversion Hy; subst. exact Hxy.
Qed.

(* ================================================================== *)
(** ** Group, sort, limit *)

Lemma group_docs_are_rows (field : string) (id e : expr) (rows : list value) :
  map (group_doc [(field, Sum e)]) (buckets id rows) =
  map (row field) (group_table id e rows).
Proof.
  unfold group_table. rewrite map_map. reflexivity.
Qed.

(** The tail shared by the report pipelines: the grouped rows, in some
    order, sorted on the total, cut at the limit. *)
Lemma report_tail (E : env) (id e : expr) (field : string) (direction n : Z)
  (rows : list value) :
  ("_id" =? field)%string = false -> split_dot field = [field] ->
  direction = 1 \/ direction = -1 -> 0 < n ->
  exists all,
    Permutation (group_table id e rows) all /\
    (direction = 1 -> Sorted Z.le (map snd all)) /\
    (direction = -1 -> Sorted Z.ge (map snd all)) /\
    run_pipeline E [Group id [(field, Sum e)]; Sort field direction; Limit n] rows
    = Ok (map (row field) (firstn (Z.to_nat n) all)).
Proof.
  intros Hid Hsplit Hdir Hn.
  cbn [run_pipeline run_stage]. unfold group_rows.
  rewrite group_docs_are_rows.
  destruct (Permutation_map_inv (row field) (group_table id e rows)
              (Permutation_sym (group_order_perm E _)))
    as [rs1 [Heq1 Hperm1]].
  rewrite Heq1.
  destruct (sort_rows_of_table field direction rs1 Hid Hsplit Hdir)
    as [all [Hsort [Hperm2 [Hasc Hdesc]]]].
  rewrite Hsort.
  apply Z.ltb_lt in Hn. rewrite Hn.
  exists all. repeat split; try assumption.
  - eapply perm_trans; eassumption.
  - now rewrite firstn_map.
Qed.

Lemma map_M_format_genre (rs : list (value * Z)) (st : store) :
  map_M format_genre (map (row "conteo") rs) st = (Ok (map genre_json rs), st).
Proof.
  induction rs as [| r rs IH]; [reflexivity |].
  cbn [map map_M]. unfold bind at 1. cbn.
  unfold bind at 1. rewrite IH. reflexivity.
Qed.

Lemma map_M_format_director (rs : list (value * Z)) (st : store) :
  map_M format_director (map (row "ingresos_totales") rs) st
  = (Ok (map director_json rs), st).
Proof.
  induction rs as [| r rs IH]; [reflexivity |].
  cbn [map map_M]. unfold bind at 1. cbn.
  unfold bind at 1. rewrite IH. reflexivity.
Qed.

Lemma column_genre_json (rs : list (value * Z)) :
  column_of "conteo" (map genre_json rs) = Some (map snd rs).
Proof.
  induction rs as [| r rs IH]; [reflexivity |].
  cbn [map column_of]. rewrite IH. reflexivity.
Qed.

Lemma column_director_json (rs : list (value * Z)) :
  column_of "ingresos_totales" (map director_json rs) = Some (map snd rs).
Proof.
  induction rs as [| r rs IH]; [reflexivity |].
  cbn [map column_of]. rewrite IH. reflexivity.
Qed.

(** What [top_generos] answers: the error of the failed call, or the
    grouped genres, sorted and cut. *)
Lemma get_top_genres_run (E : env) (args : query_args) (st : store) :
  exists all,
    Permutation
      (group_table (EField "genres.name") (EConst (VInt 1))
                   (flat_map (unwind_doc "genres") (docs st))) all /\
    (sort_direction args = 1 -> Sorted Z.le (map snd all)) /\
    (sort_direction args = -1 -> Sorted Z.ge (map snd all)) /\
    fst (get_top_genres E args st) =
    match fault E (List.length (calls st)) with
    | Some msg => Ok (error_response msg)
    | None =>
        Ok (jsonify (VArr (map genre_json
              (firstn (Z.to_nat (get_top_genres_limit E args)) all))))
    end.
Proof.
  destruct (report_tail E (EField "genres.name") (EConst (VInt 1)) "conteo"
              (sort_direction args) (get_top_genres_limit E args)
              (flat_map (unwind_doc "genres") (docs st))
              eq_refl eq_refl (sort_direction_cases args))
    as [all [Hperm [Hasc [Hdesc Hrun]]]].
  { pose proof (get_top_genres_limit_range E args). lia. }
  exists all. repeat split; try assumption.
  unfold get_top_genres, get_top_genres_body, try_except, bind.
  rewrite aggregate_run.
  destruct (fault E _) as [msg |]; [reflexivity |].
  unfold get_top_genres_pipeline.
  change (run_pipeline E (Unwind "genres" :: ?p) ?d)
    with (run_pipeline E p (flat_map (unwind_doc "genres") d)).
  rewrite Hrun, map_M_format_genre. reflexivity.
Qed.

Lemma director_stages (E : env) (p : pipeline) (ds : list value) :
  run_pipeline E
    (Unwind "crew" :: Match [("crew.job", CEq (VStr "Director"))] :: p) ds
  = run_pipeline E p (director_rows ds).
Proof.
  cbn [run_pipeline run_stage compile_match compile_cond].
  unfold director_rows. f_equal.
  apply filter_ext. intros d. unfold is_director_row.
  apply andb_true_r.
Qed.

(** What [top_directores_ingresos] answers. *)
Lemma get_top_directors_revenue_run (E : env) (args : query_args) (st : store) :
  exists all,
    Permutation
      (group_table (EField "crew.name") (EField "revenue")
                   (director_rows (docs st))) all /\
    (sort_direction args = 1 -> Sorted Z.le (map snd all)) /\
    (sort_direction args = -1 -> Sorted Z.ge (map snd all)) /\
    fst (get_top_directors_revenue E args st) =
    match fault E (List.length (calls st)) with
    | Some msg => Ok (error_response msg)
    | None =>
        Ok (jsonify (VArr (map director_json
              (firstn (Z.to_nat (get_top_directors_revenue_limit E args)) all))))
    end.
Proof.
  destruct (report_tail E (EField "crew.name") (EField "revenue")
              "ingresos_totales"
              (sort_direction args) (get_top_directors_revenue_limit E args)
              (director_rows (docs st))
              eq_refl eq_refl (sort_direction_cases args))
    as [all [Hperm [Hasc [Hdesc Hrun]]]].
  { pose proof (get_top_directors_revenue_limit_range E args). lia. }
  exists all. repeat split; try assumption.
  unfold get_top_directors_revenue, get_top_directors_revenue_body,
    try_except, bind.
  rewrite aggregate_run.
  destruct (fault E _) as [msg |]; [reflexivity |].
  unfold get_top_directors_revenue_pipeline.
  rewrite director_stages, Hrun, map_M_format_director. reflexivity.
Qed.

(** The reports answer 200 whenever their one store call answers. *)
Lemma report_succeeds (E : env) (args : query_args) (st : store) :
  fault E (List.length (calls st)) = None ->
  (exists resp, fst (get_top_genres E args st) = Ok resp /\ status resp = 200) /\
  (exists resp, fst (get_top_directors_revenue E args st) = Ok resp /\
                status resp = 200).
Proof.
  intros Hf.
  destruct (get_top_genres_run E args st) as [all [_ [_ [_ Hg]]]].
  destruct (get_top_directors_revenue_run E args st) as [all' [_ [_ [_ Hd]]]].
  rewrite Hf in Hg, Hd. rewrite Hg, Hd.
  split; eexists; split; reflexivity.
Qed.

(** Claim C1, as the code has it.  In a successful answer of top_generos
    and of top_directores_ingresos the sorted field (conteo, ingresos_totales)
    is non-increasing along the rows when the sort parameter is omitted or is
    "desc", and non-decreasing for every other value of the parameter, "asc"
    and garbage such as "xyz" alike. *)
Theorem report_rows_are_sorted (E : env) (args : query_args) (st : store) :
  (forall resp,
     fst (get_top_genres E args st) = Ok resp -> status resp = 200 ->
     exists zs,
       column "conteo" (body resp) = Some zs /\
       (assoc "sort" args = None \/ assoc "sort" args = Some "desc" ->
        Sorted Z.ge zs) /\
       (forall s, assoc "sort" args = Some s -> s <> "desc" -> Sorted Z.le zs)) /\
  (forall resp,
     fst (get_top_directors_revenue E args st) = Ok resp -> status resp = 200 ->
     exists zs,
       column "ingresos_totales" (body resp) = Some zs /\
       (assoc "sort" args = None \/ assoc "sort" args = Some "desc" ->
        Sorted Z.ge zs) /\
       (forall s, assoc "sort" args = Some s -> s <> "desc" -> Sorted Z.le zs)).
Proof.
  pose proof (sort_direction_descending args) as Hdesc.
  pose proof (sort_direction_ascending args) as Hother.
  split; intros resp Hresp Hstatus.
  - destruct (get_top_genres_run E args st) as [all [_ [Hle [Hge Hrun]]]].
    rewrite Hrun in Hresp.
    destruct (fault E _); inversion Hresp; subst resp; [discriminate |].
    exists (map snd (firstn (Z.to_nat (get_top_genres_limit E args)) all)).
    cbn [body jsonify column]. rewrite column_genre_json.
    rewrite <- firstn_map.
    split; [reflexivity |]. split.
    + intros H. apply Sorted_firstn, Hge, Hdesc, H.
    + intros s Hs Hne. apply Sorted_firstn, Hle. eauto.
  - destruct (get_top_directors_revenue_run E args st)
      as [all [_ [Hle [Hge Hrun]]]].
    rewrite Hrun in Hresp.
    destruct (fault E _); inversion Hresp; subst resp; [discriminate |].
    exists (map snd (firstn (Z.to_nat (get_top_directors_revenue_limit E args)) all)).
    cbn [body jsonify column]. rewrite column_director_json.
    rewrite <- firstn_map.
    split; [reflexivity |]. split.
    + intros H. apply Sorted_firstn, Hge, Hdesc, H.
    + intros s Hs Hne. apply Sorted_firstn, Hle. eauto.
Qed.

Lemma report_rows_are_sorted_witness :
  let st := collection_of two_movies in
  (exists resp zs,
     fst (get_top_genres plain_env [] st) = Ok resp /\ status resp = 200 /\
     column "conteo" (body resp) = Some zs /\ zs = [2; 1] /\ Sorted Z.ge zs) /\
  (exists resp zs,
     fst (get_top_directors_revenue plain_env [("sort", "asc")] st) = Ok resp /\
     status resp = 200 /\
     column "ingresos_totales" (body resp) = Some zs /\ zs = [50; 100] /\
     Sorted Z.le zs).
Proof.
  intros st.
  destruct (report_rows_are_sorted plain_env [] st) as [Hg _].
  destruct (report_rows_are_sorted plain_env [("sort", "asc")] st) as [_ Hd].
  split.
  - eexists. destruct (Hg _ eq_refl eq_refl) as [zs [Hzs [Hdesc _]]].
    exists zs. split; [reflexivity |]. split; [reflexivity |].
    split; [exact Hzs |].
    split; [cbn in Hzs; now inversion Hzs |].
    apply Hdesc. now left.
  - eexists. destruct (Hd _ eq_refl eq_refl) as [zs [Hzs [_ Hasc]]].
    exists zs. split; [reflexivity |]. split; [reflexivity |].
    split; [exact Hzs |].
    split; [cbn in Hzs; now inversion Hzs |].
    apply (Hasc "asc"); [reflexivity | discriminate].
Defined.

(** With [sort=xyz] the counts come in increasing order. *)
Lemma garbage_sort_is_ascending :
  fst (get_top_genres plain_env [("sort", "xyz")] (collection_of two_movies)) =
    Ok {| body := VArr [VDoc [("nombre", VStr "Comedy"); ("conteo", VInt 1)];
                        VDoc [("nombre", VStr "Drama"); ("conteo", VInt 2)]];
          status := 200 |} /\
  ~ Sorted Z.ge [1; 2].
Proof.
  split; [reflexivity |].
  intros H. apply Sorted_inv in H as [_ H]. apply HdRel_inv in H. lia.
Qed.

(* ================================================================== *)
(** ** Buckets of [$group] *)

Lemma bucket_insert_key_in (k k' d : value) (bs : list (value * list value)) :
  In k (map fst (bucket_insert k' d bs)) <-> In k (map fst bs) \/ k = k'.
Proof.
  induction bs as [| [k0 members] bs IH]; simpl.
  - intuition.
  - destruct (value_eqb k0 k') eqn:Hk; simpl.
    + apply value_eqb_true in Hk. subst k0. intuition.
    + rewrite IH. intuition.
Qed.

Lemma bucket_insert_NoDup (k' d : value) (bs : list (value * list value)) :
  NoDup (map fst bs) -> NoDup (map fst (bucket_insert k' d bs)).
Proof.
  induction bs as [| [k0 members] bs IH]; simpl; intros Hnd.
  - constructor; [intros [] | constructor].
  - apply NoDup_cons_iff in Hnd as [Hnotin Hnd].
    destruct (value_eqb k0 k') eqn:Hk; simpl.
    + now constructor.
    + constructor; [| now apply IH].
      rewrite bucket_insert_key_in. intros [Hin | ->]; [contradiction |].
      rewrite value_eqb_refl in Hk. discriminate.
Qed.

Lemma bucket_insert_members (k k' d : value) (bs : list (value * list value)) :
  bucket_members k (bucket_insert k' d bs) =
  if value_eqb k' k then bucket_members k bs ++ [d] else bucket_members k bs.
Proof.
  induction bs as [| [k0 members] bs IH]; simpl.
  - destruct (value_eqb k' k); reflexivity.
  - destruct (value_eqb k0 k') eqn:Hk; simpl.
    + apply value_eqb_true in Hk. subst k0.
      destruct (value_eqb k' k); reflexivity.
    + destruct (value_eqb k0 k) eqn:Hk0; [| exact IH].
      apply value_eqb_true in Hk0. subst k0.
      destruct (value_eqb k' k) eqn:Hk'; [| reflexivity].
      apply value_eqb_true in Hk'. subst k'.
      rewrite value_eqb_refl in Hk. discriminate.
Qed.

Lemma buckets_snoc (id : expr) (rows : list value) (d : value) :
  buckets id (rows ++ [d]) = bucket_insert (group_key id d) d (buckets id rows).
Proof.
  unfold buckets. now rewrite fold_left_app.
Qed.

Lemma buckets_NoDup (id : expr) (rows : list value) :
  NoDup (map fst (buckets id rows)).
Proof.
  induction rows as [| d rows IH] using rev_ind.
  - constructor.
  - rewrite buckets_snoc. now apply bucket_insert_NoDup.
Qed.

Lemma buckets_key_in (id : expr) (rows : list value) (k : value) :
  In k (map fst (buckets id rows)) <->
  exists d, In d rows /\ group_key id d = k.
Proof.
  induction rows as [| d rows IH] using rev_ind.
  - simpl. split; [intros [] | intros [d [[] _]]].
  - rewrite buckets_snoc, bucket_insert_key_in, IH. split.
    + intros [[d' [Hin Hk]] | ->].
      * exists d'. split; [apply in_or_app; now left | assumption].
      * exists d. split; [apply in_or_app; right; now left | reflexivity].
    + intros [d' [Hin Hk]]. apply in_app_or in Hin as [Hin | [<- | []]].
      * left. now exists d'.
      * right. now symmetry.
Qed.

Lemma buckets_members (id : expr) (rows : list value) (k : value) :
  bucket_members k (buckets id rows) =
  List.filter (fun d => value_eqb (group_key id d) k) rows.
Proof.
  induction rows as [| d rows IH] using rev_ind.
  - reflexivity.
  - rewrite buckets_snoc, bucket_insert_members, filter_app, IH. simpl.
    destruct (value_eqb (group_key id d) k); [reflexivity |].
    now rewrite app_nil_r.
Qed.

Lemma bucket_members_in (k : value) (members : list value)
  (bs : list (value * list value)) :
  NoDup (map fst bs) -> In (k, members) bs -> bucket_members k bs = members.
Proof.
  induction bs as [| [k0 ms0] bs IH]; simpl; intros Hnd Hin; [contradiction |].
  apply NoDup_cons_iff in Hnd as [Hnotin Hnd].
  destruct Hin as [Heq | Hin].
  - inversion Heq; subst. now rewrite value_eqb_refl.
  - destruct (value_eqb k0 k) eqn:Hk; [| now apply IH].
    apply value_eqb_true in Hk. subst k0.
    exfalso. apply Hnotin. apply in_map_iff. now exists (k, members).
Qed.

(** Each key of the table occurs once, belongs to some input row, and has
    for total the sum over the input rows with that key. *)
Lemma group_table_keys (id e : expr) (rows : list value) :
  map fst (group_table id e rows) = map fst (buckets id rows).
Proof.
  unfold group_table. rewrite map_map. reflexivity.
Qed.

Lemma group_table_NoDup (id e : expr) (rows : list value) :
  NoDup (map fst (group_table id e rows)).
Proof.
  rewrite group_table_keys. apply buckets_NoDup.
Qed.

Lemma group_table_in (id e : expr) (rows : list value) (k : value) (t : Z) :
  In (k, t) (group_table id e rows) ->
  (exists d, In d rows /\ group_key id d = k) /\
  t = sum_expr e (List.filter (fun d => value_eqb (group_key id d) k) rows).
Proof.
  unfold group_table. intros Hin.
  apply in_map_iff in Hin as [[k' members] [Heq Hin]].
  simpl in Heq. inversion Heq; subst k' t. split.
  - apply buckets_key_in. apply in_map_iff. now exists (k, members).
  - rewrite <- buckets_members.
    now rewrite (bucket_members_in k members _ (buckets_NoDup id rows) Hin).
Qed.

Lemma group_table_key_present (id e : expr) (rows : list value) (d : value) :
  In d rows -> In (group_key id d) (map fst (group_table id e rows)).
Proof.
  intros Hin. rewrite group_table_keys. apply buckets_key_in. now exists d.
Qed.

(* ================================================================== *)
(** ** Crew rows of a collection that follows the data model *)

Lemma unwind_crew_movie (m : movie) :
  unwind_doc "crew" (movie_doc m) = map (credit_doc m) (crew m).
Proof.
  unfold unwind_doc, movie_doc. cbn [assoc String.eqb Ascii.eqb Bool.eqb].
  cbn. rewrite map_map. reflexivity.
Qed.

Lemma unwind_crew_collection (movies : list movie) :
  flat_map (unwind_doc "crew") (map movie_doc movies) =
  map credit_row (credit_pairs movies).
Proof.
  unfold credit_pairs.
  induction movies as [| m movies IH]; [reflexivity |].
  cbn [map flat_map]. rewrite map_app, <- IH, unwind_crew_movie, map_map.
  reflexivity.
Qed.

Lemma is_director_row_credit (p : movie * crew_member) :
  is_director_row (credit_row p) = has_director_job p.
Proof. reflexivity. Qed.

Lemma director_rows_collection (movies : list movie) :
  director_rows (map movie_doc movies) =
  map credit_row (List.filter has_director_job (credit_pairs movies)).
Proof.
  unfold director_rows.
  rewrite unwind_crew_collection, filter_map_swap.
  f_equal.
Qed.

Lemma group_key_credit (p : movie * crew_member) :
  group_key (EField "crew.name") (credit_row p) = VStr (crew_name (snd p)).
Proof. reflexivity. Qed.

Lemma sum_revenue_credits (ps : list (movie * crew_member)) :
  sum_expr (EField "revenue") (map credit_row ps) = total_revenue ps.
Proof.
  induction ps as [| p ps IH]; [reflexivity |].
  cbn [map sum_expr fold_right total_revenue] in *.
  unfold sum_expr in IH. rewrite IH. reflexivity.
Qed.

(** The rows grouped under the name [d] are the credits of [d]. *)
Lemma rows_of_director (d : string) (movies : list movie) :
  List.filter
    (fun x => value_eqb (group_key (EField "crew.name") x) (VStr d))
    (director_rows (map movie_doc movies))
  = map credit_row (credits_of d (credit_pairs movies)).
Proof.
  rewrite director_rows_collection, filter_map_swap. f_equal.
  unfold credits_of.
  induction (credit_pairs movies) as [| p ps IH]; [reflexivity |].
  cbn [List.filter]. unfold is_director_credit at 1, has_director_job at 1.
  destruct (crew_job (snd p) =? "Director")%string; cbn [andb List.filter].
  - rewrite group_key_credit. cbn [value_eqb].
    destruct (crew_name (snd p) =? d)%string; now rewrite IH.
  - exact IH.
Qed.

Lemma total_revenue_app (ps qs : list (movie * crew_member)) :
  total_revenue (ps ++ qs) = total_revenue ps + total_revenue qs.
Proof.
  induction ps as [| p ps IH]; simpl; [reflexivity | rewrite IH; lia].
Qed.

Lemma total_revenue_one_movie (d : string) (m : movie) (cs : list crew_member) :
  total_revenue (credits_of d (map (pair m) cs)) =
  Z.of_nat (List.length (List.filter (is_director_credit d) cs)) * revenue m.
Proof.
  unfold credits_of.
  induction cs as [| c cs IH]; [reflexivity |].
  cbn [map List.filter snd].
  destruct (is_director_credit d c); [| exact IH].
  cbn [total_revenue fold_right fst List.length].
  fold (total_revenue
          (List.filter (fun p => is_director_credit d (snd p)) (map (pair m) cs))).
  rewrite IH. lia.
Qed.

(** The total of the credits of [d] counts each movie once per credit. *)
Lemma total_revenue_credits (d : string) (movies : list movie) :
  total_revenue (credits_of d (credit_pairs movies)) = director_revenue d movies.
Proof.
  induction movies as [| m movies IH]; [reflexivity |].
  unfold credit_pairs, credits_of in *. cbn [flat_map].
  rewrite filter_app, total_revenue_app, IH.
  cbn [director_revenue fold_right]. f_equal.
  apply total_revenue_one_movie.
Qed.

Lemma credit_pairs_in (m : movie) (c : crew_member) (movies : list movie) :
  In (m, c) (credit_pairs movies) <-> In m movies /\ In c (crew m).
Proof.
  unfold credit_pairs. rewrite in_flat_map. split.
  - intros [m' [Hm Hin]]. apply in_map_iff in Hin as [c' [Heq Hc]].
    inversion Heq; subst. now split.
  - intros [Hm Hc]. exists m. split; [assumption |].
    apply in_map_iff. now exists c.
Qed.

(** A row of the table of directors: its key is the name of a director
    with a credit, its total that director's revenue. *)
Lemma director_table_in (movies : list movie) (k : value) (t : Z) :
  In (k, t) (group_table (EField "crew.name") (EField "revenue")
                         (director_rows (map movie_doc movies))) ->
  exists d, k = VStr d /\ directs d movies /\ t = director_revenue d movies.
Proof.
  intros Hin. apply group_table_in in Hin as [[x [Hx Hk]] Ht].
  rewrite director_rows_collection in Hx.
  apply in_map_iff in Hx as [[m c] [<- Hp]].
  apply filter_In in Hp as [Hp Hjob].
  rewrite group_key_credit in Hk. subst k. simpl in *.
  exists (crew_name c). split; [reflexivity |]. split.
  - apply credit_pairs_in in Hp as [Hm Hc].
    exists m, c. repeat split; try assumption.
    unfold is_director_credit. unfold has_director_job in Hjob. simpl in Hjob.
    now rewrite Hjob, String.eqb_refl.
  - now rewrite Ht, rows_of_director, sum_revenue_credits, total_revenue_credits.
Qed.

Lemma director_table_complete (movies : list movie) (d : string) :
  directs d movies ->
  In (VStr d) (map fst (group_table (EField "crew.name") (EField "revenue")
                                    (director_rows (map movie_doc movies)))).
Proof.
  intros [m [c [Hm [Hc Hcredit]]]].
  unfold is_director_credit in Hcredit.
  apply andb_true_iff in Hcredit as [Hjob Hname].
  apply String.eqb_eq in Hname. subst d.
  change (VStr (crew_name c))
    with (group_key (EField "crew.name") (credit_row (m, c))).
  apply group_table_key_present.
  rewrite director_rows_collection. apply in_map, filter_In.
  split; [now apply credit_pairs_in | exact Hjob].
Qed.

Lemma firstn_incl {A : Type} (n : nat) (l : list A) (x : A) :
  In x (firstn n l) -> In x l.
Proof.
  intros H. rewrite <- (firstn_skipn n l). apply in_or_app. now left.
Qed.

Lemma firstn_NoDup {A : Type} (n : nat) (l : list A) :
  NoDup l -> NoDup (firstn n l).
Proof.
  intros H. rewrite <- (firstn_skipn n l) in H.
  now apply NoDup_app_remove_r in H.
Qed.

(** Claim C5.  On a collection that follows the data model, a successful
    answer of top_directores_ingresos has one row per director name, only
    for names that hold a crew row whose job is exactly "Director", and the
    ingresos_totales of a name is the revenue of each movie once per such
    credit of that name; names are missing only when the limit cut them. *)
Theorem director_revenue_counts_each_credit
  (E : env) (args : query_args) (movies : list movie) (st : store)
  (resp : response) :
  docs st = map movie_doc movies ->
  fst (get_top_directors_revenue E args st) = Ok resp ->
  status resp = 200 ->
  exists rows : list (string * Z),
    body resp = VArr (map director_row rows) /\
    NoDup (map fst rows) /\
    (forall d t, In (d, t) rows ->
                 directs d movies /\ t = director_revenue d movies) /\
    ((List.length rows < Z.to_nat (get_top_directors_revenue_limit E args))%nat ->
     forall d, directs d movies -> In d (map fst rows)).
Proof.
  intros Hdocs Hresp Hstatus.
  destruct (get_top_directors_revenue_run E args st)
    as [all [Hperm [_ [_ Hrun]]]].
  rewrite Hdocs in Hperm. rewrite Hrun in Hresp.
  destruct (fault E _); inversion Hresp; subst resp; [discriminate |].
  clear Hresp Hstatus Hrun.
  set (n := Z.to_nat (get_top_directors_revenue_limit E args)).
  set (table := group_table (EField "crew.name") (EField "revenue")
                            (director_rows (map movie_doc movies))) in *.
  assert (Hall : forall r, In r all ->
            exists d, fst r = VStr d /\ directs d movies /\
                      snd r = director_revenue d movies).
  { intros [k t] Hin. apply (Permutation_in _ (Permutation_sym Hperm)) in Hin.
    now apply director_table_in. }
  assert (Hkeys : NoDup (map fst all)).
  { eapply Permutation_NoDup; [apply Permutation_map, Hperm |].
    apply group_table_NoDup. }
  exists (map (fun r => (key_name (fst r), snd r)) (firstn n all)).
  split; [| split; [| split]].
  - cbn [body jsonify]. f_equal. rewrite map_map.
    apply map_ext_in. intros [k t] Hin.
    apply firstn_incl, Hall in Hin as [d [Hk _]]. simpl in Hk. now subst k.
  - rewrite map_map. cbn [fst].
    rewrite <- (map_map fst key_name).
    apply NoDup_map_NoDup_ForallPairs.
    + intros k1 k2 H1 H2 Heq.
      apply in_map_iff in H1 as [r1 [<- H1]].
      apply in_map_iff in H2 as [r2 [<- H2]].
      apply firstn_incl, Hall in H1 as [d1 [Hk1 _]].
      apply firstn_incl, Hall in H2 as [d2 [Hk2 _]].
      rewrite Hk1, Hk2 in *. simpl in Heq. now subst.
    + rewrite <- firstn_map. now apply firstn_NoDup.
  - intros d t Hin. apply in_map_iff in Hin as [r [Heq Hin]].
    apply firstn_incl, Hall in Hin as [d' [Hk [Hd Ht]]].
    rewrite Hk in Heq. simpl in Heq. inversion Heq; subst. now split.
  - rewrite length_map, length_firstn. intros Hlen d Hd.
    assert (Hfull : firstn n all = all) by (apply firstn_all2; lia).
    rewrite Hfull.
    apply director_table_complete in Hd.
    apply (Permutation_in _ (Permutation_map fst Hperm)) in Hd.
    apply in_map_iff in Hd as [r [Hk Hin]].
    rewrite map_map. apply in_map_iff. exists r. cbn [fst].
    now rewrite Hk.
Qed.

(** Ana has two credits on the first movie and one on the second; "director"
    and "Co-Director" are not credits. *)
Lemma director_revenue_counts_each_credit_witness :
  let st := collection_of credited_movies in
  let resp := {| body := VArr [director_row ("Ana", 250); director_row ("Bea", 50)];
                 status := 200 |} in
  fst (get_top_directors_revenue plain_env [] st) = Ok resp /\
  director_revenue "Ana" credited_movies = 2 * 100 + 50 /\
  exists rows : list (string * Z),
    body resp = VArr (map director_row rows) /\
    NoDup (map fst rows) /\
    (forall d t, In (d, t) rows ->
                 directs d credited_movies /\
                 t = director_revenue d credited_movies) /\
    ((List.length rows < Z.to_nat (get_top_directors_revenue_limit plain_env []))%nat ->
     forall d, directs d credited_movies -> In d (map fst rows)).
Proof.
  intros st resp.
  split; [reflexivity |]. split; [reflexivity |].
  apply (director_revenue_counts_each_credit plain_env [] credited_movies st resp);
    reflexivity.
Defined.

(* ================================================================== *)
(** ** The search term is a regular expression *)

(** Claim C10.  [search] hands [q] to the store unchanged, as the pattern of
    a case-insensitive [$regex]; this is not substring matching, since for
    a [q] with a parenthesis a genre is found whose name does not contain
    [q]; and a [q] that the store rejects as a pattern gives the 500
    response with the store's message, not the 400 of a missing [q]. *)
Theorem search_term_is_a_pattern :
  (forall q,
     In (Match [("genres.name", CRegex q "i")]) (search_genre_pipeline q) /\
     In (Match [("crew.job", CEq (VStr "Director"));
                ("crew.name", CRegex q "i")]) (search_director_pipeline q)) /\
  (exists q name,
     q <> "" /\ is_substring "(" q = true /\
     is_substring_nocase q name = false /\
     fst (search plain_env [("q", q)]
            (collection_of [ {| genres := [ {| genre_name := name |} ];
                                crew := []; revenue := 0; other := [] |} ])) =
     Ok {| body := VDoc [("genres", VArr [VDoc [("nombre", VStr name);
                                               ("conteo", VInt 1)]]);
                         ("directors", VArr [])];
           status := 200 |}) /\
  (forall (E : env) (args : query_args) (st : store) (q e : string),
     assoc "q" args = Some q -> q <> "" ->
     regex_compile E q "i" = Raise e ->
     exists msg,
       fst (search E args st) =
         Ok {| body := VDoc [("error", VStr msg)]; status := 500 |} /\
       (fault E (List.length (calls st)) = None -> msg = e)).
Proof.
  split; [| split].
  - intros q. split; simpl; auto.
  - exists "(dra)", "Drama". repeat split. discriminate.
  - intros E args st q e Hq Hne Hrej.
    unfold search, search_body, try_except, bind.
    rewrite (search_query_present _ _ Hq).
    apply String.eqb_neq in Hne. rewrite Hne.
    rewrite aggregate_run.
    destruct (fault E _) as [msg |].
    + exists msg. split; [reflexivity | discriminate].
    + exists e. split; [| reflexivity].
      cbn [search_genre_pipeline run_pipeline run_stage compile_match
           compile_cond].
      rewrite Hrej. reflexivity.
Qed.

Lemma search_term_is_a_pattern_witness :
  regex_compile plain_env "(" "i" =
    Raise "Regular expression is invalid: missing closing parenthesis" /\
  exists msg,
    fst (search plain_env [("q", "(")] (collection_of two_movies)) =
      Ok {| body := VDoc [("error", VStr msg)]; status := 500 |} /\
    (fault plain_env (List.length (calls (collection_of two_movies))) = None ->
     msg = "Regular expression is invalid: missing closing parenthesis").
Proof.
  split; [reflexivity |].
  destruct search_term_is_a_pattern as [_ [_ H]].
  apply (H plain_env [("q", "(")] (collection_of two_movies) "(");
    [reflexivity | discriminate | reflexivity].
Defined.

(* ================================================================== *)
(** ** Further properties of the reports *)

(** Whatever the query string, a report answers 200 or 500, and 500 only
    when its store call failed, with the message of that failure: no value
    of [limit] or [sort] makes the store reject the pipeline. *)
Theorem reports_fail_only_with_the_store (E : env) (args : query_args) (st : store) :
  (exists resp,
     fst (get_top_genres E args st) = Ok resp /\
     ((status resp = 200 /\ fault E (List.length (calls st)) = None) \/
      (status resp = 500 /\
       exists msg, fault E (List.length (calls st)) = Some msg /\
                   body resp = VDoc [("error", VStr msg)]))) /\
  (exists resp,
     fst (get_top_directors_revenue E args st) = Ok resp /\
     ((status resp = 200 /\ fault E (List.length (calls st)) = None) \/
      (status resp = 500 /\
       exists msg, fault E (List.length (calls st)) = Some msg /\
                   body resp = VDoc [("error", VStr msg)]))).
Proof.
  destruct (get_top_genres_run E args st) as [all [_ [_ [_ Hg]]]].
  destruct (get_top_directors_revenue_run E args st) as [all' [_ [_ [_ Hd]]]].
  rewrite Hg, Hd.
  destruct (fault E _) as [msg |]; split; eexists; (split; [reflexivity |]).
  - right. split; [reflexivity |]. now exists msg.
  - right. split; [reflexivity |]. now exists msg.
  - left. now split.
  - left. now split.
Qed.

(** A successful report has at most as many rows as the clamped limit:
    never more than 50 genres, never more than 30 directors. *)
Theorem report_length_within_limit (E : env) (args : query_args) (st : store) :
  (forall resp,
     fst (get_top_genres E args st) = Ok resp -> status resp = 200 ->
     exists rows,
       body resp = VArr rows /\
       Z.of_nat (List.length rows) <= get_top_genres_limit E args <= 50) /\
  (forall resp,
     fst (get_top_directors_revenue E args st) = Ok resp -> status resp = 200 ->
     exists rows,
       body resp = VArr rows /\
       Z.of_nat (List.length rows) <= get_top_directors_revenue_limit E args <= 30).
Proof.
  split; intros resp Hresp Hstatus.
  - destruct (get_top_genres_run E args st) as [all [_ [_ [_ Hrun]]]].
    rewrite Hrun in Hresp.
    destruct (fault E _); inversion Hresp; subst resp; [discriminate |].
    eexists. split; [reflexivity |].
    rewrite length_map, length_firstn.
    pose proof (get_top_genres_limit_range E args). lia.
  - destruct (get_top_directors_revenue_run E args st) as [all [_ [_ [_ Hrun]]]].
    rewrite Hrun in Hresp.
    destruct (fault E _); inversion Hresp; subst resp; [discriminate |].
    eexists. split; [reflexivity |].
    rewrite length_map, length_firstn.
    pose proof (get_top_directors_revenue_limit_range E args). lia.
Qed.

Lemma report_length_within_limit_witness :
  let st := collection_of two_movies in
  exists resp rows,
    fst (get_top_genres plain_env [("limit", "1")] st) = Ok resp /\
    body resp = VArr rows /\
    Z.of_nat (List.length rows) <= get_top_genres_limit plain_env [("limit", "1")] <= 50 /\
    List.length rows = 1%nat.
Proof.
  intros st.
  destruct (report_length_within_limit plain_env [("limit", "1")] st) as [H _].
  eexists.
  destruct (H _ eq_refl eq_refl) as [rows [Hrows Hlen]].
  exists rows. split; [reflexivity |]. split; [exact Hrows |].
  split; [exact Hlen |].
  cbn in Hrows. inversion Hrows. reflexivity.
Defined.

(* ================================================================== *)
(** ** What search answers *)

Lemma run_pipeline_cons (E : env) (s : stage) (p : pipeline) (rows : list value) :
  run_pipeline E (s :: p) rows =
  match run_stage E s rows with
  | Ok rows' => run_pipeline E p rows'
  | Raise msg => Raise msg
  end.
Proof. reflexivity. Qed.

Lemma search_genre_stages (E : env) (q : string) (found : string -> bool)
  (ds : list value) :
  regex_compile E q "i" = Ok found ->
  run_pipeline E (search_genre_pipeline q) ds =
  run_pipeline E
    [ Group (EField "genres.name") [("conteo", Sum (EConst (VInt 1)))];
      Sort "conteo" (-1); Limit 10 ]
    (genre_matches found ds).
Proof.
  intros Hc. unfold search_genre_pipeline.
  rewrite run_pipeline_cons. cbn [run_stage].
  rewrite run_pipeline_cons. cbn [run_stage compile_match compile_cond].
  rewrite Hc. unfold genre_matches. f_equal.
  apply filter_ext. intros d. unfold name_matches. apply andb_true_r.
Qed.

Lemma search_director_stages (E : env) (q : string) (found : string -> bool)
  (ds : list value) :
  regex_compile E q "i" = Ok found ->
  run_pipeline E (search_director_pipeline q) ds =
  run_pipeline E
    [ Group (EField "crew.name") [("ingresos_totales", Sum (EField "revenue"))];
      Sort "ingresos_totales" (-1); Limit 10 ]
    (director_matches found ds).
Proof.
  intros Hc. unfold search_director_pipeline.
  rewrite run_pipeline_cons. cbn [run_stage].
  rewrite run_pipeline_cons. cbn [run_stage compile_match compile_cond].
  rewrite Hc. unfold director_matches. f_equal.
  apply filter_ext. intros d. unfold name_matches, is_director_row.
  now rewrite andb_true_r.
Qed.

(** A pattern the store rejects stops the search at its first call. *)
Lemma search_rejected (E : env) (args : query_args) (st : store) (q e : string) :
  assoc "q" args = Some q -> q <> "" ->
  regex_compile E q "i" = Raise e ->
  exists msg, fst (search E args st) = Ok (error_response msg).
Proof.
  intros Hq Hne Hrej.
  unfold search, search_body, try_except, bind.
  rewrite (search_query_present _ _ Hq).
  apply String.eqb_neq in Hne. rewrite Hne.
  rewrite aggregate_run.
  destruct (fault E _) as [msg |]; [now exists msg |].
  exists e.
  cbn [search_genre_pipeline run_pipeline run_stage compile_match compile_cond].
  now rewrite Hrej.
Qed.

(** The answer of a search whose pattern compiles and whose two calls are
    answered: both tables, sorted downwards, cut at ten rows. *)
Lemma search_run (E : env) (args : query_args) (st : store) (q : string)
  (found : string -> bool) :
  assoc "q" args = Some q -> q <> "" ->
  regex_compile E q "i" = Ok found ->
  first_fault E (List.length (calls st)) 2 = None ->
  exists gall dall,
    Permutation (group_table (EField "genres.name") (EConst (VInt 1))
                             (genre_matches found (docs st))) gall /\
    Sorted Z.ge (map snd gall) /\
    Permutation (group_table (EField "crew.name") (EField "revenue")
                             (director_matches found (docs st))) dall /\
    Sorted Z.ge (map snd dall) /\
    fst (search E args st) =
    Ok (jsonify (VDoc [("genres", VArr (map genre_json (firstn 10 gall)));
                       ("directors", VArr (map director_json (firstn 10 dall)))])).
Proof.
  intros Hq Hne Hc Hfault. simpl in Hfault.
  destruct (fault E (List.length (calls st))) eqn:Hf0; [discriminate |].
  destruct (fault E (S (List.length (calls st)))) eqn:Hf1; [discriminate |].
  destruct (report_tail E (EField "genres.name") (EConst (VInt 1)) "conteo"
              (-1) 10 (genre_matches found (docs st))
              eq_refl eq_refl (or_intror eq_refl) eq_refl)
    as [gall [Hgperm [_ [Hgsorted Hgrun]]]].
  destruct (report_tail E (EField "crew.name") (EField "revenue")
              "ingresos_totales" (-1) 10 (director_matches found (docs st))
              eq_refl eq_refl (or_intror eq_refl) eq_refl)
    as [dall [Hdperm [_ [Hdsorted Hdrun]]]].
  exists gall, dall.
  split; [exact Hgperm |]. split; [now apply Hgsorted |].
  split; [exact Hdperm |]. split; [now apply Hdsorted |].
  unfold search, search_body, try_except, bind.
  rewrite (search_query_present _ _ Hq).
  apply String.eqb_neq in Hne. rewrite Hne.
  rewrite aggregate_run, Hf0, (search_genre_stages E q found _ Hc), Hgrun.
  rewrite aggregate_run. cbn [calls docs]. rewrite calls_after, Hf1.
  rewrite (search_director_stages E q found _ Hc), Hdrun.
  rewrite map_M_format_genre, map_M_format_director. reflexivity.
Qed.

(** A search that answers 200 had a pattern that compiled and two calls
    that were answered. *)
Lemma search_success (E : env) (args : query_args) (st : store) (resp : response) :
  fst (search E args st) = Ok resp -> status resp = 200 ->
  exists q found,
    assoc "q" args = Some q /\ q <> "" /\
    regex_compile E q "i" = Ok found /\
    first_fault E (List.length (calls st)) 2 = None.
Proof.
  intros Hresp Hstatus.
  assert (Hnot400 : forall st', search E args st =
            (Ok {| body := VDoc [("error", VStr "Parámetro 'q' requerido")];
                   status := 400 |}, st') -> False).
  { intros st' H. rewrite H in Hresp. inversion Hresp; subst resp.
    discriminate Hstatus. }
  assert (Hempty : args_get args "q" "" py_str = "" ->
            search E args st =
            (Ok {| body := VDoc [("error", VStr "Parámetro 'q' requerido")];
                   status := 400 |}, st)).
  { intros H. unfold search, search_body, try_except. now rewrite H. }
  destruct (assoc "q" args) as [q |] eqn:Hq.
  - exists q. destruct (String.eqb_spec q "") as [-> | Hne].
    + exfalso. apply (Hnot400 st), Hempty. now apply search_query_present.
    + destruct (regex_compile E q "i") as [found | e] eqn:Hc.
      * exists found. repeat split; try assumption.
        destruct (first_fault E (List.length (calls st)) 2) as [msg |] eqn:Hf;
          [| reflexivity].
        rewrite (search_fault E args st q msg found Hq Hne Hc Hf) in Hresp.
        inversion Hresp; subst resp. discriminate Hstatus.
      * destruct (search_rejected E args st q e Hq Hne Hc) as [msg Hmsg].
        rewrite Hmsg in Hresp. inversion Hresp; subst resp. discriminate Hstatus.
  - exfalso. apply (Hnot400 st), Hempty. now apply args_get_absent.
Qed.

(** A successful search holds two lists of at most ten rows each, the
    genres with their counts and the directors with their totals, both in
    non-increasing order whatever the query string says about limit or sort. *)
Theorem search_lists_are_sorted_and_short
  (E : env) (args : query_args) (st : store) (resp : response) :
  fst (search E args st) = Ok resp -> status resp = 200 ->
  exists gs ds zs ws,
    body resp = VDoc [("genres", VArr gs); ("directors", VArr ds)] /\
    (List.length gs <= 10)%nat /\ (List.length ds <= 10)%nat /\
    column_of "conteo" gs = Some zs /\ Sorted Z.ge zs /\
    column_of "ingresos_totales" ds = Some ws /\ Sorted Z.ge ws.
Proof.
  intros Hresp Hstatus.
  destruct (search_success E args st resp Hresp Hstatus)
    as [q [found [Hq [Hne [Hc Hf]]]]].
  destruct (search_run E args st q found Hq Hne Hc Hf)
    as [gall [dall [_ [Hgs [_ [Hds Hrun]]]]]].
  rewrite Hrun in Hresp. inversion Hresp; subst resp.
  exists (map genre_json (firstn 10 gall)), (map director_json (firstn 10 dall)),
         (map snd (firstn 10 gall)), (map snd (firstn 10 dall)).
  split; [reflexivity |].
  rewrite !length_map, !length_firstn.
  split; [lia |]. split; [lia |].
  rewrite column_genre_json, column_director_json, <- !firstn_map.
  repeat split; now apply Sorted_firstn.
Qed.

Lemma search_lists_are_sorted_and_short_witness :
  exists resp gs ds zs ws,
    fst (search plain_env [("q", "A"); ("sort", "asc"); ("limit", "1")]
           (collection_of credited_movies)) = Ok resp /\
    body resp = VDoc [("genres", VArr gs); ("directors", VArr ds)] /\
    (List.length gs <= 10)%nat /\ (List.length ds <= 10)%nat /\
    column_of "conteo" gs = Some zs /\ Sorted Z.ge zs /\
    column_of "ingresos_totales" ds = Some ws /\ Sorted Z.ge ws /\
    ws = [250; 50].
Proof.
  eexists.
  destruct (search_lists_are_sorted_and_short plain_env
              [("q", "A"); ("sort", "asc"); ("limit", "1")]
              (collection_of credited_movies) _ eq_refl eq_refl)
    as [gs [ds [zs [ws [Hb [Hg [Hd [Hzs [Hsz [Hws Hsw]]]]]]]]]].
  exists gs, ds, zs, ws.
  split; [reflexivity |].
  repeat (split; [assumption |]).
  cbn in Hb. inversion Hb; subst gs ds. cbn in Hws. now inversion Hws.
Defined.

(* ================================================================== *)
(** ** Tables whose keys are names *)

(** The first [n] rows of a table in any order, when all its keys are
    names: the names are distinct, each row is a row of the table, and names
    are missing only when the cut removed them. *)
Lemma named_rows (table all : list (value * Z)) (n : nat) :
  Permutation table all ->
  NoDup (map fst table) ->
  (forall k t, In (k, t) table -> exists d, k = VStr d) ->
  exists rows : list (string * Z),
    firstn n all = map (fun r => (VStr (fst r), snd r)) rows /\
    NoDup (map fst rows) /\
    (forall d t, In (d, t) rows -> In (VStr d, t) table) /\
    ((List.length rows < n)%nat ->
     forall d, In (VStr d) (map fst table) -> In d (map fst rows)).
Proof.
  intros Hperm Hnodup Hnames.
  assert (Hall : forall r, In r all -> exists d, fst r = VStr d).
  { intros [k t] Hin. apply (Permutation_in _ (Permutation_sym Hperm)) in Hin.
    destruct (Hnames k t Hin) as [d ->]. now exists d. }
  assert (Hkeys : NoDup (map fst all)).
  { eapply Permutation_NoDup; [apply Permutation_map, Hperm | exact Hnodup]. }
  exists (map (fun r => (key_name (fst r), snd r)) (firstn n all)).
  split; [| split; [| split]].
  - rewrite map_map. rewrite <- (map_id (firstn n all)) at 1.
    apply map_ext_in. intros [k t] Hin.
    apply firstn_incl, Hall in Hin as [d Hk]. simpl in *. now subst k.
  - rewrite map_map. cbn [fst].
    rewrite <- (map_map fst key_name).
    apply NoDup_map_NoDup_ForallPairs.
    + intros k1 k2 H1 H2 Heq.
      apply in_map_iff in H1 as [r1 [<- H1]].
      apply in_map_iff in H2 as [r2 [<- H2]].
      apply firstn_incl, Hall in H1 as [d1 Hk1].
      apply firstn_incl, Hall in H2 as [d2 Hk2].
      rewrite Hk1, Hk2 in *. simpl in Heq. now subst.
    + rewrite <- firstn_map. now apply firstn_NoDup.
  - intros d t Hin. apply in_map_iff in Hin as [[k t'] [Heq Hin]].
    apply firstn_incl in Hin.
    destruct (Hall _ Hin) as [d' Hk]. simpl in *. subst k.
    inversion Heq; subst.
    now apply (Permutation_in _ (Permutation_sym Hperm)).
  - rewrite length_map, length_firstn. intros Hlen d Hd.
    assert (Hfull : firstn n all = all) by (apply firstn_all2; lia).
    rewrite Hfull.
    apply (Permutation_in _ (Permutation_map fst Hperm)) in Hd.
    apply in_map_iff in Hd as [r [Hk Hin]].
    rewrite map_map. apply in_map_iff. exists r. cbn [fst].
    now rewrite Hk.
Qed.

(* ================================================================== *)
(** ** Genre rows of a collection that follows the data model *)

Lemma unwind_genres_movie (m : movie) :
  unwind_doc "genres" (movie_doc m) = map (genre_entry_doc m) (genres m).
Proof.
  unfold unwind_doc, movie_doc. cbn. rewrite map_map. reflexivity.
Qed.

Lemma unwind_genres_collection (movies : list movie) :
  flat_map (unwind_doc "genres") (map movie_doc movies) =
  map genre_entry_row (genre_pairs movies).
Proof.
  unfold genre_pairs.
  induction movies as [| m movies IH]; [reflexivity |].
  cbn [map flat_map]. rewrite map_app, <- IH, unwind_genres_movie, map_map.
  reflexivity.
Qed.

Lemma genre_matches_collection (found : string -> bool) (movies : list movie) :
  genre_matches found (map movie_doc movies) =
  map genre_entry_row
      (List.filter (fun p => found (genre_name (snd p))) (genre_pairs movies)).
Proof.
  unfold genre_matches.
  rewrite unwind_genres_collection, filter_map_swap. reflexivity.
Qed.

Lemma group_key_genre (p : movie * genre) :
  group_key (EField "genres.name") (genre_entry_row p) = VStr (genre_name (snd p)).
Proof. reflexivity. Qed.

Lemma sum_one (rows : list value) :
  sum_expr (EConst (VInt 1)) rows = Z.of_nat (List.length rows).
Proof.
  induction rows as [| d rows IH]; [reflexivity |].
  cbn [sum_expr fold_right List.length] in *. unfold sum_expr in IH.
  rewrite IH. cbn [eval_expr numeric]. lia.
Qed.

Lemma genre_pairs_in (m : movie) (g : genre) (movies : list movie) :
  In (m, g) (genre_pairs movies) <-> In m movies /\ In g (genres m).
Proof.
  unfold genre_pairs. rewrite in_flat_map. split.
  - intros [m' [Hm Hin]]. apply in_map_iff in Hin as [g' [Heq Hg]].
    inversion Heq; subst. now split.
  - intros [Hm Hg]. exists m. split; [assumption |].
    apply in_map_iff. now exists g.
Qed.

(** Among the genre entries kept by [found], those named [g] are all the
    entries named [g] when [found g] holds. *)
Lemma entries_named (found : string -> bool) (g : string)
  (ps : list (movie * genre)) :
  found g = true ->
  List.filter (fun p => (genre_name (snd p) =? g)%string)
              (List.filter (fun p => found (genre_name (snd p))) ps)
  = List.filter (fun p => (genre_name (snd p) =? g)%string) ps.
Proof.
  intros Hg. induction ps as [| p ps IH]; [reflexivity |].
  cbn [List.filter].
  destruct (found (genre_name (snd p))) eqn:Hp; cbn [List.filter].
  - now rewrite IH.
  - destruct (String.eqb_spec (genre_name (snd p)) g) as [Heq | _];
      [| exact IH].
    rewrite Heq, Hg in Hp. discriminate.
Qed.

(** A row of the table of genres: its key is a genre name that [found]
    accepts, its total the number of genre entries with that name. *)
Lemma genre_table_in (found : string -> bool) (movies : list movie)
  (k : value) (n : Z) :
  In (k, n) (group_table (EField "genres.name") (EConst (VInt 1))
                         (genre_matches found (map movie_doc movies))) ->
  exists g, k = VStr g /\ found g = true /\ In g (genre_names movies) /\
            n = genre_count g movies.
Proof.
  intros Hin. apply group_table_in in Hin as [[x [Hx Hk]] Hn].
  rewrite genre_matches_collection in Hx, Hn.
  apply in_map_iff in Hx as [p [<- Hp]].
  apply filter_In in Hp as [Hp Hfound].
  rewrite group_key_genre in Hk. subst k.
  exists (genre_name (snd p)). split; [reflexivity |].
  split; [exact Hfound |]. split.
  - unfold genre_names. apply in_map_iff. now exists p.
  - rewrite Hn, sum_one, filter_map_swap, length_map.
    unfold genre_count, genre_names. rewrite filter_map_swap, length_map.
    f_equal. f_equal.
    rewrite <- (entries_named found _ (genre_pairs movies) Hfound).
    apply filter_ext. intros p'. now rewrite group_key_genre.
Qed.

Lemma genre_table_complete (found : string -> bool) (movies : list movie)
  (g : string) :
  In g (genre_names movies) -> found g = true ->
  In (VStr g) (map fst (group_table (EField "genres.name") (EConst (VInt 1))
                          (genre_matches found (map movie_doc movies)))).
Proof.
  intros Hin Hfound. unfold genre_names in Hin.
  apply in_map_iff in Hin as [p [<- Hp]].
  rewrite <- group_key_genre. apply group_table_key_present.
  rewrite genre_matches_collection. apply in_map, filter_In. now split.
Qed.

Lemma genre_count_positive (g : string) (movies : list movie) :
  In g (genre_names movies) -> 0 < genre_count g movies.
Proof.
  intros Hin. unfold genre_count.
  assert (H : In g (List.filter (fun s => (s =? g)%string) (genre_names movies))).
  { apply filter_In. split; [assumption | apply String.eqb_refl]. }
  destruct (List.filter _ _); [contradiction | simpl; lia].
Qed.

(** Without a pattern every genre entry is kept. *)
Lemma genre_matches_all (movies : list movie) :
  flat_map (unwind_doc "genres") (map movie_doc movies) =
  genre_matches (fun _ => true) (map movie_doc movies).
Proof.
  rewrite genre_matches_collection, filter_all.
  apply unwind_genres_collection.
Qed.

(** On a collection that follows the data model, a successful top_generos
    has one row per genre name, the conteo of a name is the number of genre
    entries with that name over all movies (an entry repeated in a movie
    counts each time), and names are missing only when the limit cut them. *)
Theorem genre_counts_are_occurrences
  (E : env) (args : query_args) (movies : list movie) (st : store)
  (resp : response) :
  docs st = map movie_doc movies ->
  fst (get_top_genres E args st) = Ok resp ->
  status resp = 200 ->
  exists rows : list (string * Z),
    body resp = VArr (map genre_row rows) /\
    NoDup (map fst rows) /\
    (forall g n, In (g, n) rows ->
                 In g (genre_names movies) /\ n = genre_count g movies /\ 0 < n) /\
    ((List.length rows < Z.to_nat (get_top_genres_limit E args))%nat ->
     forall g, In g (genre_names movies) -> In g (map fst rows)).
Proof.
  intros Hdocs Hresp Hstatus.
  destruct (get_top_genres_run E args st) as [all [Hperm [_ [_ Hrun]]]].
  rewrite Hdocs, genre_matches_all in Hperm. rewrite Hrun in Hresp.
  destruct (fault E _); inversion Hresp; subst resp; [discriminate |].
  clear Hresp Hstatus Hrun.
  destruct (named_rows _ all (Z.to_nat (get_top_genres_limit E args)) Hperm
              (group_table_NoDup _ _ _))
    as [rows [Hrows [Hnodup [Hin Hfull]]]].
  { intros k t Hk. apply genre_table_in in Hk as [g [-> _]]. now exists g. }
  exists rows. split; [| split; [exact Hnodup | split]].
  - cbn [body jsonify]. rewrite Hrows, map_map. reflexivity.
  - intros g n Hg. apply Hin, genre_table_in in Hg as [g' [Heq [_ [Hname Hn]]]].
    inversion Heq; subst g'.
    repeat split; [assumption | assumption |].
    rewrite Hn. now apply genre_count_positive.
  - intros Hlen g Hg. apply (Hfull Hlen).
    now apply genre_table_complete.
Qed.

Lemma genre_counts_are_occurrences_witness :
  let st := collection_of two_movies in
  let resp := {| body := VArr [genre_row ("Drama", 2); genre_row ("Comedy", 1)];
                 status := 200 |} in
  fst (get_top_genres plain_env [] st) = Ok resp /\
  genre_count "Drama" two_movies = 2 /\
  exists rows : list (string * Z),
    body resp = VArr (map genre_row rows) /\
    NoDup (map fst rows) /\
    (forall g n, In (g, n) rows ->
                 In g (genre_names two_movies) /\
                 n = genre_count g two_movies /\ 0 < n) /\
    ((List.length rows < Z.to_nat (get_top_genres_limit plain_env []))%nat ->
     forall g, In g (genre_names two_movies) -> In g (map fst rows)).
Proof.
  intros st resp.
  split; [reflexivity |]. split; [reflexivity |].
  apply (genre_counts_are_occurrences plain_env [] two_movies st resp);
    reflexivity.
Defined.

(* ================================================================== *)
(** ** Search on a collection that follows the data model *)

Lemma director_matches_collection (found : string -> bool) (movies : list movie) :
  director_matches found (map movie_doc movies) =
  map credit_row
      (List.filter (fun p => (has_director_job p && found (crew_name (snd p)))%bool)
                   (credit_pairs movies)).
Proof.
  unfold director_matches.
  rewrite unwind_crew_collection, filter_map_swap. reflexivity.
Qed.

(** Among the directing credits kept by [found], those of [d] are all the
    credits of [d] when [found d] holds. *)
Lemma credits_found (found : string -> bool) (d : string)
  (ps : list (movie * crew_member)) :
  found d = true ->
  List.filter (fun p => (crew_name (snd p) =? d)%string)
    (List.filter (fun p => (has_director_job p && found (crew_name (snd p)))%bool) ps)
  = credits_of d ps.
Proof.
  intros Hd. unfold credits_of, is_director_credit, has_director_job.
  induction ps as [| p ps IH]; [reflexivity |].
  cbn [List.filter].
  destruct (crew_job (snd p) =? "Director")%string; cbn [andb List.filter];
    [| exact IH].
  destruct (String.eqb_spec (crew_name (snd p)) d) as [Heq | Hne].
  - subst d. rewrite Hd. cbn [List.filter].
    rewrite String.eqb_refl. now rewrite IH.
  - destruct (found (crew_name (snd p))); cbn [List.filter]; [| exact IH].
    apply String.eqb_neq in Hne. rewrite Hne. exact IH.
Qed.

Lemma found_director_table_in (found : string -> bool) (movies : list movie)
  (k : value) (t : Z) :
  In (k, t) (group_table (EField "crew.name") (EField "revenue")
                         (director_matches found (map movie_doc movies))) ->
  exists d, k = VStr d /\ found d = true /\ directs d movies /\
            t = director_revenue d movies.
Proof.
  intros Hin. apply group_table_in in Hin as [[x [Hx Hk]] Ht].
  rewrite director_matches_collection in Hx, Ht.
  apply in_map_iff in Hx as [[m c] [<- Hp]].
  apply filter_In in Hp as [Hp Hkeep].
  apply andb_true_iff in Hkeep as [Hjob Hfound].
  rewrite group_key_credit in Hk. subst k. simpl in *.
  exists (crew_name c). split; [reflexivity |]. split; [exact Hfound |]. split.
  - apply credit_pairs_in in Hp as [Hm Hc].
    exists m, c. repeat split; try assumption.
    unfold is_director_credit. unfold has_director_job in Hjob. simpl in Hjob.
    now rewrite Hjob, String.eqb_refl.
  - rewrite Ht, filter_map_swap.
    rewrite (filter_ext _ (fun p => (crew_name (snd p) =? crew_name c)%string))
      by (intros p; now rewrite group_key_credit).
    now rewrite (credits_found found _ _ Hfound), sum_revenue_credits,
      total_revenue_credits.
Qed.

Lemma found_director_table_complete (found : string -> bool)
  (movies : list movie) (d : string) :
  directs d movies -> found d = true ->
  In (VStr d) (map fst (group_table (EField "crew.name") (EField "revenue")
                          (director_matches found (map movie_doc movies)))).
Proof.
  intros [m [c [Hm [Hc Hcredit]]]] Hfound.
  unfold is_director_credit in Hcredit.
  apply andb_true_iff in Hcredit as [Hjob Hname].
  apply String.eqb_eq in Hname. subst d.
  change (VStr (crew_name c))
    with (group_key (EField "crew.name") (credit_row (m, c))).
  apply group_table_key_present.
  rewrite director_matches_collection. apply in_map, filter_In.
  split; [now apply credit_pairs_in |].
  unfold has_director_job. simpl. now rewrite Hjob, Hfound.
Qed.

Lemma Ok_inj {A : Type} (a b : A) : Ok a = Ok b -> a = b.
Proof. congruence. Qed.

(** On a collection that follows the data model, a successful search lists
    the genre names and the director names that the compiled pattern
    accepts, each once; a genre comes with the number of its entries, a
    director with the same total as in top_directores_ingresos (every movie
    once per credit whose job is exactly "Director"); a name that matches
    is missing only when ten others took the list. *)
Theorem search_finds_matching_names
  (E : env) (args : query_args) (movies : list movie) (st : store)
  (resp : response) :
  docs st = map movie_doc movies ->
  fst (search E args st) = Ok resp ->
  status resp = 200 ->
  exists (q : string) (found : string -> bool) (grows drows : list (string * Z)),
    assoc "q" args = Some q /\ regex_compile E q "i" = Ok found /\
    body resp = VDoc [("genres", VArr (map genre_row grows));
                      ("directors", VArr (map director_row drows))] /\
    NoDup (map fst grows) /\ NoDup (map fst drows) /\
    (forall g n, In (g, n) grows ->
       found g = true /\ n = genre_count g movies /\ 0 < n) /\
    (forall d t, In (d, t) drows ->
       found d = true /\ directs d movies /\ t = director_revenue d movies) /\
    ((List.length grows < 10)%nat ->
     forall g, In g (genre_names movies) -> found g = true ->
               In g (map fst grows)) /\
    ((List.length drows < 10)%nat ->
     forall d, directs d movies -> found d = true -> In d (map fst drows)).
Proof.
  intros Hdocs Hresp Hstatus.
  destruct (search_success E args st resp Hresp Hstatus)
    as [q [found [Hq [Hne [Hc Hf]]]]].
  destruct (search_run E args st q found Hq Hne Hc Hf)
    as [gall [dall [Hgperm [_ [Hdperm [_ Hrun]]]]]].
  rewrite Hdocs in Hgperm, Hdperm.
  rewrite Hrun in Hresp. apply Ok_inj in Hresp. subst resp.
  clear Hstatus Hrun.
  destruct (named_rows _ gall 10 Hgperm (group_table_NoDup _ _ _))
    as [grows [Hgrows [Hgnodup [Hgin Hgfull]]]].
  { intros k t Hk. apply genre_table_in in Hk as [g [-> _]]. now exists g. }
  destruct (named_rows _ dall 10 Hdperm (group_table_NoDup _ _ _))
    as [drows [Hdrows [Hdnodup [Hdin Hdfull]]]].
  { intros k t Hk. apply found_director_table_in in Hk as [d [-> _]].
    now exists d. }
  exists q, found, grows, drows.
  split; [exact Hq |]. split; [exact Hc |]. split.
  { unfold jsonify. cbv beta iota delta [body].
    rewrite Hgrows, Hdrows, !map_map. reflexivity. }
  split; [exact Hgnodup |]. split; [exact Hdnodup |].
  split; [| split; [| split]].
  - intros g n Hg.
    apply Hgin, genre_table_in in Hg as [g' [Heq [Hfound [Hname Hn]]]].
    inversion Heq; subst g'.
    repeat split; [assumption | assumption |].
    rewrite Hn. now apply genre_count_positive.
  - intros d t Hd.
    apply Hdin, found_director_table_in in Hd as [d' [Heq [Hfound [Hdir Ht]]]].
    inversion Heq; subst d'. now repeat split.
  - intros Hlen g Hg Hfound. apply (Hgfull Hlen).
    now apply genre_table_complete.
  - intros Hlen d Hd Hfound. apply (Hdfull Hlen).
    now apply found_director_table_complete.
Qed.

Lemma search_finds_matching_names_witness :
  let st := collection_of credited_movies in
  let resp := {| body := VDoc [("genres", VArr [genre_row ("Drama", 1)]);
                               ("directors", VArr [director_row ("Ana", 250)])];
                 status := 200 |} in
  fst (search plain_env [("q", "a.a")] st) = Ok resp /\
  exists (q : string) (found : string -> bool) (grows drows : list (string * Z)),
    assoc "q" [("q", "a.a")] = Some q /\ regex_compile plain_env q "i" = Ok found /\
    body resp = VDoc [("genres", VArr (map genre_row grows));
                      ("directors", VArr (map director_row drows))] /\
    NoDup (map fst grows) /\ NoDup (map fst drows) /\
    (forall g n, In (g, n) grows ->
       found g = true /\ n = genre_count g credited_movies /\ 0 < n) /\
    (forall d t, In (d, t) drows ->
       found d = true /\ directs d credited_movies /\
       t = director_revenue d credited_movies) /\
    ((List.length grows < 10)%nat ->
     forall g, In g (genre_names credited_movies) -> found g = true ->
               In g (map fst grows)) /\
    ((List.length drows < 10)%nat ->
     forall d, directs d credited_movies -> found d = true ->
               In d (map fst drows)).
Proof.
  intros st resp.
  split; [reflexivity |].
  apply (search_finds_matching_names plain_env [("q", "a.a")] credited_movies
           st resp); reflexivity.
Defined.

Lemma filter_none {A : Type} (f : A -> bool) (l : list A) :
  (forall x, In x l -> f x = false) -> List.filter f l = [].
Proof.
  induction l as [| x l IH]; intros H; [reflexivity |].
  cbn [List.filter]. rewrite (H x (or_introl eq_refl)).
  apply IH. intros y Hy. apply H. now right.
Qed.

(** When the compiled pattern accepts no genre name and no director name of
    the collection, search answers 200 with two empty lists. *)
Theorem search_without_match_is_empty
  (E : env) (args : query_args) (movies : list movie) (st : store)
  (q : string) (found : string -> bool) :
  docs st = map movie_doc movies ->
  assoc "q" args = Some q -> q <> "" ->
  regex_compile E q "i" = Ok found ->
  first_fault E (List.length (calls st)) 2 = None ->
  (forall g, In g (genre_names movies) -> found g = false) ->
  (forall d, directs d movies -> found d = false) ->
  fst (search E args st) =
  Ok {| body := VDoc [("genres", VArr []); ("directors", VArr [])];
        status := 200 |}.
Proof.
  intros Hdocs Hq Hne Hc Hf Hgenres Hdirectors.
  destruct (search_run E args st q found Hq Hne Hc Hf)
    as [gall [dall [Hgperm [_ [Hdperm [_ Hrun]]]]]].
  rewrite Hdocs in Hgperm, Hdperm.
  rewrite genre_matches_collection, filter_none in Hgperm.
  2:{ intros [m g] Hp. apply Hgenres. unfold genre_names.
      apply in_map_iff. now exists (m, g). }
  rewrite director_matches_collection, filter_none in Hdperm.
  2:{ intros [m c] Hp. unfold has_director_job. simpl.
      destruct (crew_job c =? "Director")%string eqn:Hjob; [| reflexivity].
      simpl. apply Hdirectors. apply credit_pairs_in in Hp as [Hm Hcrew].
      exists m, c. repeat split; try assumption.
      unfold is_director_credit. now rewrite Hjob, String.eqb_refl. }
  apply Permutation_nil in Hgperm. apply Permutation_nil in Hdperm.
  subst gall dall. exact Hrun.
Qed.

Lemma search_without_match_is_empty_witness :
  fst (search plain_env [("q", "western")] (collection_of credited_movies)) =
  Ok {| body := VDoc [("genres", VArr []); ("directors", VArr [])];
        status := 200 |}.
Proof.
  pose (found := fun s => match Regex.compile "western" "i" with
                          | Ok f => f s
                          | Raise _ => false
                          end).
  apply (search_without_match_is_empty plain_env [("q", "western")]
           credited_movies (collection_of credited_movies) "western" found).
  - reflexivity.
  - reflexivity.
  - discriminate.
  - reflexivity.
  - reflexivity.
  - intros g Hg. cbn in Hg.
    destruct Hg as [<- | [<- | []]]; vm_compute; reflexivity.
  - intros d [m [c [Hm [Hcrew Hcredit]]]].
    unfold is_director_credit in Hcredit.
    apply andb_true_iff in Hcredit as [_ Hname].
    apply String.eqb_eq in Hname. subst d.
    cbn in Hm. destruct Hm as [<- | [<- | []]]; cbn in Hcrew;
      repeat (destruct Hcrew as [<- | Hcrew]; [vm_compute; reflexivity |]);
      contradiction.
Defined.

(* ================================================================== *)
(** ** Summary statistics of a collection *)

(** The genre count of [stats]: the number of groups, zero when the
    pipeline gives no document. *)
Lemma stats_genre_total (E : env) (ds : list value) :
  exists rows,
    run_pipeline E stats_genre_pipeline ds = Ok rows /\
    forall st,
      match rows with
      | first :: _ => getitem first "total"
      | [] => ret (VInt 0)
      end st
      = (Ok (VInt (Z.of_nat (List.length
                (buckets (EField "genres.name")
                         (flat_map (unwind_doc "genres") ds))))), st).
Proof.
  cbn [stats_genre_pipeline run_pipeline run_stage].
  unfold group_rows.
  set (bs := buckets (EField "genres.name") (flat_map (unwind_doc "genres") ds)).
  pose proof (Permutation_length (group_order_perm E (map (group_doc []) bs)))
    as Hlen.
  rewrite length_map in Hlen.
  destruct (group_order E (map (group_doc []) bs)) as [| d rows].
  - eexists. split; [reflexivity |]. intros st. now rewrite Hlen.
  - eexists. split; [reflexivity |]. intros st. now rewrite Hlen.
Qed.

Lemma distinct_genres_length (movies : list movie) :
  List.length (buckets (EField "genres.name")
                 (flat_map (unwind_doc "genres") (map movie_doc movies)))
  = List.length (distinct_genres movies).
Proof.
  rewrite unwind_genres_collection.
  rewrite <- (length_map fst), <- (length_map VStr (distinct_genres movies)).
  apply Permutation_length, NoDup_Permutation.
  - apply buckets_NoDup.
  - apply NoDup_map_NoDup_ForallPairs.
    + intros a b _ _ H. now inversion H.
    + apply NoDup_nodup.
  - intros k. rewrite buckets_key_in. unfold distinct_genres, genre_names. split.
    + intros [d [Hd Hk]]. apply in_map_iff in Hd as [p [<- Hp]].
      rewrite group_key_genre in Hk. subst k.
      apply in_map, nodup_In, in_map_iff. now exists p.
    + intros Hk. apply in_map_iff in Hk as [g [<- Hg]].
      apply nodup_In, in_map_iff in Hg as [p [<- Hp]].
      exists (genre_entry_row p). split; [now apply in_map | reflexivity].
Qed.

Lemma sorted_head_is_max (z : Z) (zs : list Z) :
  Sorted Z.ge (z :: zs) -> forall x, In x zs -> x <= z.
Proof.
  revert z. induction zs as [| y zs IH]; intros z Hs x Hx; [contradiction |].
  apply Sorted_inv in Hs as [Hs Hhd]. apply HdRel_inv in Hhd.
  destruct Hx as [<- | Hx]; [lia |].
  specialize (IH y Hs x Hx). lia.
Qed.

(** On a collection that follows the data model, with its three calls
    answered, [stats] gives the number of movies, the number of distinct
    genre names, and as top director null when no crew row has the job
    "Director", otherwise a director whose total no other director exceeds,
    as the raw group document with the name under [_id]. *)
Theorem stats_of_collection (E : env) (movies : list movie) (st : store) :
  docs st = map movie_doc movies ->
  first_fault E (List.length (calls st)) 3 = None ->
  exists top,
    fst (get_stats E st) =
    Ok {| body := VDoc [("total_movies", VInt (Z.of_nat (List.length movies)));
                        ("total_genres",
                         VInt (Z.of_nat (List.length (distinct_genres movies))));
                        ("top_director", top)];
          status := 200 |} /\
    (((forall d, ~ directs d movies) /\ top = VNull) \/
     (exists d,
        directs d movies /\
        top = VDoc [("_id", VStr d);
                    ("ingresos_totales", VInt (director_revenue d movies))] /\
        forall d', directs d' movies ->
                   director_revenue d' movies <= director_revenue d movies)).
Proof.
  intros Hdocs Hfault. simpl in Hfault.
  destruct (fault E (List.length (calls st))) eqn:Hf0; [discriminate |].
  destruct (fault E (S (List.length (calls st)))) eqn:Hf1; [discriminate |].
  destruct (fault E (S (S (List.length (calls st))))) eqn:Hf2; [discriminate |].
  destruct (stats_genre_total E (docs st)) as [grows [Hgrun Hgtotal]].
  destruct (report_tail E (EField "crew.name") (EField "revenue")
              "ingresos_totales" (-1) 1 (director_rows (docs st))
              eq_refl eq_refl (or_intror eq_refl) eq_refl)
    as [all [Hperm [_ [Hsorted Hrun]]]].
  specialize (Hsorted eq_refl).
  rewrite Hdocs in Hperm.
  assert (Hall : forall r, In r all ->
            exists d, fst r = VStr d /\ directs d movies /\
                      snd r = director_revenue d movies).
  { intros [k t] Hin. apply (Permutation_in _ (Permutation_sym Hperm)) in Hin.
    now apply director_table_in. }
  exists (match all with
          | r :: _ => row "ingresos_totales" r
          | [] => VNull
          end).
  split.
  - unfold get_stats, get_stats_body, try_except, bind.
    rewrite count_documents_run, Hf0.
    rewrite aggregate_run. cbn [calls docs]. rewrite calls_after, Hf1.
    rewrite Hgrun, Hgtotal.
    rewrite aggregate_run. cbn [calls docs]. rewrite !calls_after, Hf2.
    unfold stats_director_pipeline. rewrite director_stages, Hrun.
    rewrite Hdocs, length_map, distinct_genres_length.
    destruct all; reflexivity.
  - destruct all as [| [k t] rest].
    + left. split; [| reflexivity].
      intros d Hd. apply director_table_complete in Hd.
      apply Permutation_sym, Permutation_nil in Hperm.
      rewrite Hperm in Hd. contradiction.
    + right. destruct (Hall (k, t) (or_introl eq_refl)) as [d [Hk [Hd Ht]]].
      simpl in Hk, Ht. subst k t.
      exists d. split; [exact Hd |]. split; [reflexivity |].
      intros d' Hd'. apply director_table_complete in Hd'.
      apply (Permutation_in _ (Permutation_map fst Hperm)) in Hd'.
      apply in_map_iff in Hd' as [[k' t'] [Hk' Hin]]. simpl in Hk'. subst k'.
      destruct (Hall _ Hin) as [d'' [Hk'' [_ Ht']]]. simpl in Hk'', Ht'.
      inversion Hk''; subst d''. rewrite <- Ht'.
      destruct Hin as [Heq | Hin]; [inversion Heq; lia |].
      apply (sorted_head_is_max _ _ Hsorted).
      change t' with (snd (VStr d', t')). now apply in_map.
Qed.

Lemma stats_of_collection_witness :
  fst (get_stats plain_env (collection_of credited_movies)) =
  Ok {| body := VDoc [("total_movies", VInt 2);
                      ("total_genres", VInt 2);
                      ("top_director",
                       VDoc [("_id", VStr "Ana"); ("ingresos_totales", VInt 250)])];
        status := 200 |} /\
  director_revenue "Bea" credited_movies <= director_revenue "Ana" credited_movies.
Proof.
  destruct (stats_of_collection plain_env credited_movies
              (collection_of credited_movies) eq_refl eq_refl)
    as [top [Hstats [[Hnone _] | [d [Hd [Htop Hmax]]]]]].
  - exfalso. apply (Hnone "Ana").
    exists (hd {| genres := []; crew := []; revenue := 0; other := [] |}
               credited_movies),
           {| crew_name := "Ana"; crew_job := "Director" |}.
    repeat split; cbn; auto.
  - split; [reflexivity |].
    cbn in Hstats. inversion Hstats as [Heq]. rewrite Htop in Heq.
    inversion Heq; subst d.
    apply Hmax.
    exists (nth 1 credited_movies
                {| genres := []; crew := []; revenue := 0; other := [] |}),
           {| crew_name := "Bea"; crew_job := "Director" |}.
    repeat split; cbn; auto.
Defined.

(** [stats] asks the store at most three times, in the order count, genres,
    directors, and stops at the first call that fails: no call is retried
    and none is made after a failure. *)
Theorem stats_stops_at_first_failure (E : env) (st : store) :
  calls (snd (get_stats E st)) =
  calls st ++ firstn (calls_made E (List.length (calls st)) 3) stats_calls.
Proof.
  unfold get_stats, get_stats_body, try_except, bind.
  cbn [calls_made stats_calls].
  rewrite count_documents_run.
  destruct (fault E (List.length (calls st))) as [m |]; [reflexivity |].
  rewrite aggregate_run. cbn [calls docs]. rewrite calls_after.
  destruct (fault E (S (List.length (calls st)))) as [m |];
    [cbn; now rewrite <- app_assoc |].
  destruct (stats_genre_total E (docs st)) as [grows [-> Htotal]].
  rewrite Htotal.
  rewrite aggregate_run. cbn [calls docs]. rewrite !calls_after.
  destruct (fault E (S (S (List.length (calls st))))) as [m |].
  - cbn. now rewrite <- !app_assoc.
  - destruct (run_pipeline E stats_director_pipeline (docs st));
      cbn; now rewrite <- !app_assoc.
Qed.

(* ================================================================== *)
(** ** The rows a report keeps *)

Lemma strongly_sorted_app (R : Z -> Z -> Prop) (l1 l2 : list Z) :
  StronglySorted R (l1 ++ l2) ->
  forall x y, In x l1 -> In y l2 -> R x y.
Proof.
  induction l1 as [| a l1 IH]; intros Hs x y Hx Hy; [contradiction |].
  simpl in Hs. apply StronglySorted_inv in Hs as [Hs Hall].
  destruct Hx as [<- | Hx].
  - rewrite Forall_forall in Hall. apply Hall, in_or_app. now right.
  - now apply IH.
Qed.

(** In a sorted table cut at [n], every row kept is before every row cut. *)
Lemma cut_keeps_extremes (R : Z -> Z -> Prop) (all : list (value * Z)) (n : nat) :
  (forall a b c, R a b -> R b c -> R a c) ->
  Sorted R (map snd all) ->
  forall r r', In r (firstn n all) -> In r' (skipn n all) -> R (snd r) (snd r').
Proof.
  intros Htrans Hs r r' Hr Hr'.
  apply Sorted_StronglySorted in Hs; [| exact Htrans].
  rewrite <- (firstn_skipn n all), map_app in Hs.
  apply (strongly_sorted_app R _ _ Hs); now apply in_map.
Qed.

(** On a collection that follows the data model, top_directores_ingresos
    keeps the extremes: with the sort omitted or "desc" no director left out
    of a successful answer has a greater total than a director in it, and
    with any other sort value none has a smaller total. *)
Theorem directors_report_keeps_the_extremes
  (E : env) (args : query_args) (movies : list movie) (st : store)
  (resp : response) :
  docs st = map movie_doc movies ->
  fst (get_top_directors_revenue E args st) = Ok resp ->
  status resp = 200 ->
  exists rows : list (string * Z),
    body resp = VArr (map director_row rows) /\
    (assoc "sort" args = None \/ assoc "sort" args = Some "desc" ->
     forall d t d', In (d, t) rows -> directs d' movies ->
                    ~ In d' (map fst rows) -> director_revenue d' movies <= t) /\
    (forall s, assoc "sort" args = Some s -> s <> "desc" ->
     forall d t d', In (d, t) rows -> directs d' movies ->
                    ~ In d' (map fst rows) -> t <= director_revenue d' movies).
Proof.
  intros Hdocs Hresp Hstatus.
  destruct (get_top_directors_revenue_run E args st)
    as [all [Hperm [Hasc [Hdesc Hrun]]]].
  rewrite Hdocs in Hperm. rewrite Hrun in Hresp.
  destruct (fault E _); [apply Ok_inj in Hresp; subst resp; discriminate |].
  apply Ok_inj in Hresp. subst resp. clear Hstatus Hrun.
  set (n := Z.to_nat (get_top_directors_revenue_limit E args)) in *.
  destruct (named_rows _ all n Hperm (group_table_NoDup _ _ _))
    as [rows [Hrows _]].
  { intros k t Hk. apply director_table_in in Hk as [d [-> _]]. now exists d. }
  assert (Hout : forall d', directs d' movies -> ~ In d' (map fst rows) ->
            In (VStr d', director_revenue d' movies) (skipn n all)).
  { intros d' Hd' Hnot. apply director_table_complete in Hd'.
    apply (Permutation_in _ (Permutation_map fst Hperm)) in Hd'.
    apply in_map_iff in Hd' as [[k' t'] [Hk' Hin]]. simpl in Hk'. subst k'.
    assert (Ht' : t' = director_revenue d' movies).
    { apply (Permutation_in _ (Permutation_sym Hperm)), director_table_in in Hin
        as [d'' [Heq [_ Ht]]]. now inversion Heq; subst. }
    subst t'.
    rewrite <- (firstn_skipn n all) in Hin.
    apply in_app_or in Hin as [Hin | Hin]; [| exact Hin].
    exfalso. apply Hnot. rewrite Hrows in Hin.
    apply in_map_iff in Hin as [[d0 t0] [Heq Hin]].
    simpl in Heq. inversion Heq; subst.
    apply in_map_iff. now exists (d', director_revenue d' movies). }
  assert (Hin : forall d t, In (d, t) rows -> In (VStr d, t) (firstn n all)).
  { intros d t Hdt. rewrite Hrows.
    apply in_map_iff. now exists (d, t). }
  exists rows. split; [| split].
  - unfold jsonify. cbv beta iota delta [body].
    fold n. rewrite Hrows, map_map. reflexivity.
  - intros Hsort d t d' Hdt Hd' Hnot.
    specialize (Hdesc (sort_direction_descending args Hsort)).
    assert (Htrans : forall a b c, a >= b -> b >= c -> a >= c)
      by (intros; lia).
    pose proof (cut_keeps_extremes Z.ge all n Htrans Hdesc
                  _ _ (Hin d t Hdt) (Hout d' Hd' Hnot)) as H.
    simpl in H. lia.
  - intros s Hs Hne d t d' Hdt Hd' Hnot.
    specialize (Hasc (sort_direction_ascending args s Hs Hne)).
    assert (Htrans : forall a b c, a <= b -> b <= c -> a <= c)
      by (intros; lia).
    exact (cut_keeps_extremes Z.le all n Htrans Hasc
             _ _ (Hin d t Hdt) (Hout d' Hd' Hnot)).
Qed.

Lemma directors_report_keeps_the_extremes_witness :
  let st := collection_of credited_movies in
  let resp := {| body := VArr [director_row ("Ana", 250)]; status := 200 |} in
  fst (get_top_directors_revenue plain_env [("limit", "1")] st) = Ok resp /\
  director_revenue "Bea" credited_movies <= 250.
Proof.
  intros st resp. split; [reflexivity |].
  destruct (directors_report_keeps_the_extremes plain_env [("limit", "1")]
              credited_movies st resp eq_refl eq_refl eq_refl)
    as [rows [Hbody [Hdesc _]]].
  assert (Hrows : rows = [("Ana", 250)]).
  { cbn in Hbody. inversion Hbody as [Heq].
    destruct rows as [| [d t] [| r rows]]; try discriminate Heq.
    now inversion Heq. }
  subst rows.
  apply (Hdesc (or_introl eq_refl) "Ana" 250 "Bea").
  - now left.
  - exists (nth 1 credited_movies
                {| genres := []; crew := []; revenue := 0; other := [] |}),
           {| crew_name := "Bea"; crew_job := "Director" |}.
    repeat split; cbn; auto.
  - cbn. intros [H | []]. discriminate H.
Defined.

(** On a collection that follows the data model, top_generos keeps the
    extremes too: with the sort omitted or "desc" no genre left out of a
    successful answer has more entries than a genre in it, and with any
    other sort value none has fewer. *)
Theorem genres_report_keeps_the_extremes
  (E : env) (args : query_args) (movies : list movie) (st : store)
  (resp : response) :
  docs st = map movie_doc movies ->
  fst (get_top_genres E args st) = Ok resp ->
  status resp = 200 ->
  exists rows : list (string * Z),
    body resp = VArr (map genre_row rows) /\
    (assoc "sort" args = None \/ assoc "sort" args = Some "desc" ->
     forall g n g', In (g, n) rows -> In g' (genre_names movies) ->
                    ~ In g' (map fst rows) -> genre_count g' movies <= n) /\
    (forall s, assoc "sort" args = Some s -> s <> "desc" ->
     forall g n g', In (g, n) rows -> In g' (genre_names movies) ->
                    ~ In g' (map fst rows) -> n <= genre_count g' movies).
Proof.
  intros Hdocs Hresp Hstatus.
  destruct (get_top_genres_run E args st) as [all [Hperm [Hasc [Hdesc Hrun]]]].
  rewrite Hdocs, genre_matches_all in Hperm. rewrite Hrun in Hresp.
  destruct (fault E _); [apply Ok_inj in Hresp; subst resp; discriminate |].
  apply Ok_inj in Hresp. subst resp. clear Hstatus Hrun.
  set (n := Z.to_nat (get_top_genres_limit E args)) in *.
  destruct (named_rows _ all n Hperm (group_table_NoDup _ _ _))
    as [rows [Hrows _]].
  { intros k t Hk. apply genre_table_in in Hk as [g [-> _]]. now exists g. }
  assert (Hout : forall g', In g' (genre_names movies) -> ~ In g' (map fst rows) ->
            In (VStr g', genre_count g' movies) (skipn n all)).
  { intros g' Hg' Hnot.
    apply (genre_table_complete (fun _ => true)) in Hg'; [| reflexivity].
    apply (Permutation_in _ (Permutation_map fst Hperm)) in Hg'.
    apply in_map_iff in Hg' as [[k' t'] [Hk' Hin]]. simpl in Hk'. subst k'.
    assert (Ht' : t' = genre_count g' movies).
    { apply (Permutation_in _ (Permutation_sym Hperm)), genre_table_in in Hin
        as [g'' [Heq [_ [_ Ht]]]]. now inversion Heq; subst. }
    subst t'.
    rewrite <- (firstn_skipn n all) in Hin.
    apply in_app_or in Hin as [Hin | Hin]; [| exact Hin].
    exfalso. apply Hnot. rewrite Hrows in Hin.
    apply in_map_iff in Hin as [[g0 t0] [Heq Hin]].
    simpl in Heq. inversion Heq; subst.
    apply in_map_iff. now exists (g', genre_count g' movies). }
  assert (Hin : forall g t, In (g, t) rows -> In (VStr g, t) (firstn n all)).
  { intros g t Hgt. rewrite Hrows.
    apply in_map_iff. now exists (g, t). }
  exists rows. split; [| split].
  - unfold jsonify. cbv beta iota delta [body].
    fold n. rewrite Hrows, map_map. reflexivity.
  - intros Hsort g t g' Hgt Hg' Hnot.
    specialize (Hdesc (sort_direction_descending args Hsort)).
    assert (Htrans : forall a b c, a >= b -> b >= c -> a >= c)
      by (intros; lia).
    pose proof (cut_keeps_extremes Z.ge all n Htrans Hdesc
                  _ _ (Hin g t Hgt) (Hout g' Hg' Hnot)) as H.
    simpl in H. lia.
  - intros s Hs Hne g t g' Hgt Hg' Hnot.
    specialize (Hasc (sort_direction_ascending args s Hs Hne)).
    assert (Htrans : forall a b c, a <= b -> b <= c -> a <= c)
      by (intros; lia).
    exact (cut_keeps_extremes Z.le all n Htrans Hasc
             _ _ (Hin g t Hgt) (Hout g' Hg' Hnot)).
Qed.

Lemma genres_report_keeps_the_extremes_witness :
  let st := collection_of two_movies in
  let resp := {| body := VArr [genre_row ("Comedy", 1)]; status := 200 |} in
  fst (get_top_genres plain_env [("limit", "1"); ("sort", "asc")] st) = Ok resp /\
  1 <= genre_count "Drama" two_movies.
Proof.
  intros st resp. split; [reflexivity |].
  destruct (genres_report_keeps_the_extremes plain_env
              [("limit", "1"); ("sort", "asc")] two_movies st resp
              eq_refl eq_refl eq_refl)
    as [rows [Hbody [_ Hasc]]].
  assert (Hrows : rows = [("Comedy", 1)]).
  { cbn in Hbody. inversion Hbody as [Heq].
    destruct rows as [| [g t] [| r rows]]; try discriminate Heq.
    now inversion Heq. }
  subst rows.
  apply (Hasc "asc" eq_refl ltac:(discriminate) "Comedy" 1 "Drama").
  - now left.
  - cbn. auto.
  - cbn. intros [H | []]. discriminate H.
Defined.
